(** * Verification of the ambient-music generator of reelgenerator

    Shallow embedding of [src/modules/music_generator.py] (and of the
    constants of [src/config.py] it reads).

    Modelling conventions:
    - Python floats are modelled by exact rationals [Q]; [math.sin] and
      [math.pi] are left abstract (Section variables [py_sin] and [pi]),
      so every theorem about the synthesizer holds for any choice of them.
    - Python [int(x)] on a float truncates toward zero: [py_int].
    - Python exceptions that the code can reach (list indexing,
      [struct.pack] range check) are modelled by the [PyM] error monad.
    - The global state the module touches (the [random] module's seed,
      the wall clock, the file system) is an explicit record [world]. *)

From Stdlib Require Import ZArith QArith Qround String Ascii Bool List Lia Lqa.
Import ListNotations.

Open Scope Q_scope.

(* ------------------------------------------------------------------ *)
(** ** Python primitives *)

(** [int(x)] for a float [x]: truncation toward zero. *)
Definition py_int (x : Q) : Z := Z.quot (Qnum x) (Zpos (Qden x)).

(** Python's [round(x)] on floats (round half to even), used only to
    state what the spec says. *)
Definition py_round (x : Q) : Z :=
  let f := Qfloor x in
  let d := x - inject_Z f in
  if Qle_bool d (1#2) && negb (Qeq_bool d (1#2)) then f
  else if Qeq_bool d (1#2) then (if Z.even f then f else f + 1)
  else f + 1.

(** [min(a, b)] and [max(a, b)] keep the first argument unless the second
    is strictly smaller (resp. larger). *)
Definition py_min (a b : Q) : Q := if negb (Qle_bool a b) then b else a.
Definition py_max (a b : Q) : Q := if negb (Qle_bool b a) then b else a.

(** [range(n)] for an int [n]; empty when [n <= 0]. *)
Definition py_range (n : Z) : list Z := map Z.of_nat (seq 0 (Z.to_nat n)).

(** [enumerate(xs)]. *)
Definition enumerate {A} (xs : list A) : list (nat * A) :=
  combine (seq 0 (length xs)) xs.

(** Exceptions reachable in the module. *)
Inductive py_exc := IndexError | StructError.

(** Computations that may raise: [inl] is a raised exception. *)
Definition PyM (A : Type) : Type := (py_exc + A)%type.
Definition ret {A} (a : A) : PyM A := inr a.
Definition raise {A} (e : py_exc) : PyM A := inl e.
Definition bind {A B} (m : PyM A) (k : A -> PyM B) : PyM B :=
  match m with inl e => inl e | inr a => k a end.
Notation "x <- m ; k" := (bind m (fun x => k))
  (at level 61, m at next level, right associativity).

(** [xs[i]], with Python's negative indices. *)
Definition py_getitem {A} (xs : list A) (i : Z) : PyM A :=
  let n := Z.of_nat (length xs) in
  let j := if (i <? 0)%Z then (n + i)%Z else i in
  if ((0 <=? j) && (j <? n))%Z then
    match nth_error xs (Z.to_nat j) with Some a => ret a | None => raise IndexError end
  else raise IndexError.

Fixpoint list_set {A} (xs : list A) (k : nat) (a : A) : list A :=
  match xs, k with
  | [], _ => []
  | _ :: r, O => a :: r
  | x :: r, S k' => x :: list_set r k' a
  end.

(** [xs[i] = a] (in place), with Python's negative indices. *)
Definition py_setitem {A} (xs : list A) (i : Z) (a : A) : PyM (list A) :=
  let n := Z.of_nat (length xs) in
  let j := if (i <? 0)%Z then (n + i)%Z else i in
  if ((0 <=? j) && (j <? n))%Z then ret (list_set xs (Z.to_nat j) a)
  else raise IndexError.

(** [xs[:n]] *)
Definition py_slice_upto {A} (xs : list A) (n : Z) : list A :=
  let len := Z.of_nat (length xs) in
  if (0 <=? n)%Z then firstn (Z.to_nat n) xs
  else firstn (Z.to_nat (len + n)) xs.

(** [for i in is: s = body(i, s)] in the exception monad. *)
Fixpoint for_in {S} (body : Z -> S -> PyM S) (is : list Z) (s : S) : PyM S :=
  match is with
  | [] => ret s
  | i :: r => s' <- body i s; for_in body r s'
  end.

(* ------------------------------------------------------------------ *)
(** ** Strings: [str.lower] and the [in] operator on strings

    Text is held as its UTF-8 bytes.  [str.lower] is the Unicode lower-case
    mapping (which sends, e.g., U+212A KELVIN SIGN to ["k"]); its table is
    not reproduced here, so the functions that call it take it as an
    argument [py_lower].  On ASCII text it maps ["A"]..["Z"] to ["a"]..["z"]
    and fixes every other character: that is [ascii_lower], and [lower_ok]
    states that a lower-casing function agrees with it on ASCII text. *)

Definition lower_ascii (c : ascii) : ascii :=
  let n := nat_of_ascii c in
  if (65 <=? n)%nat && (n <=? 90)%nat then ascii_of_nat (n + 32) else c.

Fixpoint ascii_lower (s : string) : string :=
  match s with
  | EmptyString => EmptyString
  | String c r => String (lower_ascii c) (ascii_lower r)
  end.

Definition is_ascii (s : string) : bool :=
  forallb (fun c => Nat.ltb (nat_of_ascii c) 128) (list_ascii_of_string s).

(** [str.lower] restricted to ASCII text. *)
Definition lower_ok (py_lower : string -> string) : Prop :=
  forall s, is_ascii s = true -> py_lower s = ascii_lower s.

(** [kw in s]: [kw] is a substring of [s].  The keywords below are ASCII,
    and an ASCII byte never occurs inside the multi-byte UTF-8 encoding of
    another character, so byte containment is character containment. *)
Fixpoint py_contains (kw s : string) : bool :=
  match s with
  | EmptyString => String.prefix kw s
  | String _ r => String.prefix kw s || py_contains kw r
  end.

(** [s.endswith(suf)]; a glob pattern ["*" ++ suf] matches exactly such names. *)
Definition ends_with (suf s : string) : bool :=
  (String.length suf <=? String.length s)%nat &&
  String.eqb (substring (String.length s - String.length suf) (String.length suf) s) suf.

(* ------------------------------------------------------------------ *)
(** ** Constants ([config.py] and module constants) *)

Definition SAMPLE_RATE : Z := 44100.
Definition CHANNELS : Z := 2.
Definition MUSIC_FADE_IN : Q := 1.0.
Definition MUSIC_FADE_OUT : Q := 2.0.
Definition SCENE_DURATION : Q := 5.0.

(** [MOOD_CHORDS]: a dict in insertion order. *)
Definition MOOD_CHORDS : list (string * list (list Q)) := [
  ("calm", [[261.63; 329.63; 392.00]; [349.23; 440.00; 523.25];
            [293.66; 369.99; 440.00]; [392.00; 493.88; 587.33]]);
  ("inspirational", [[261.63; 329.63; 392.00]; [293.66; 369.99; 440.00];
                     [349.23; 440.00; 523.25]; [392.00; 493.88; 587.33]]);
  ("nostalgic", [[220.00; 261.63; 329.63]; [349.23; 440.00; 523.25];
                 [261.63; 329.63; 392.00]; [329.63; 392.00; 493.88]]);
  ("epic", [[293.66; 369.99; 440.00]; [174.61; 220.00; 261.63];
            [261.63; 329.63; 392.00]; [196.00; 246.94; 293.66]]);
  ("melancholic", [[220.00; 261.63; 329.63]; [329.63; 392.00; 493.88];
                   [293.66; 349.23; 440.00]; [220.00; 277.18; 329.63]]);
  ("dreamy", [[261.63; 392.00; 493.88]; [349.23; 523.25; 659.25];
              [293.66; 440.00; 554.37]; [392.00; 587.33; 739.99]])
]%string.

Fixpoint assoc_get {A} (k : string) (d : list (string * A)) : option A :=
  match d with
  | [] => None
  | (k', v) :: r => if String.eqb k k' then Some v else assoc_get k r
  end.

(** [MOOD_CHORDS.get(mood, MOOD_CHORDS["calm"])] *)
Definition mood_chords_get (mood : string) : list (list Q) :=
  match assoc_get mood MOOD_CHORDS with
  | Some c => c
  | None => match assoc_get "calm"%string MOOD_CHORDS with Some c => c | None => [] end
  end.

(* ------------------------------------------------------------------ *)
(** ** [_detect_mood] *)

Definition mood_keywords : list (string * list string) := [
  ("calm", ["calm"; "peaceful"; "soft"; "gentle"; "ambient"; "lo-fi"; "lofi"; "chill"]);
  ("inspirational", ["inspirational"; "uplifting"; "hope"; "motivational"; "bright"]);
  ("nostalgic", ["nostalgic"; "memory"; "vintage"; "retro"; "warm"]);
  ("epic", ["epic"; "cinematic"; "dramatic"; "powerful"; "intense"; "orchestral"]);
  ("melancholic", ["sad"; "melancholic"; "emotional"; "piano"; "somber"; "dark"]);
  ("dreamy", ["dreamy"; "ethereal"; "floating"; "spacey"; "atmospheric"])
]%string.

Fixpoint detect_mood_loop (tone : string) (table : list (string * list string)) : string :=
  match table with
  | [] => "calm"%string
  | (mood, keywords) :: r =>
      if existsb (fun kw => py_contains kw tone) keywords then mood
      else detect_mood_loop tone r
  end.

Definition detect_mood (py_lower : string -> string) (audio_tone : string) : string :=
  let tone := py_lower audio_tone in
  detect_mood_loop tone mood_keywords.

(* ------------------------------------------------------------------ *)
(** ** [_synthesize_ambient] *)

Definition crossfade_samples : Z := py_int (0.5 * inject_Z SAMPLE_RATE).
Definition fade_in_samples : Z := py_int (MUSIC_FADE_IN * inject_Z SAMPLE_RATE).
Definition fade_out_samples : Z := py_int (MUSIC_FADE_OUT * inject_Z SAMPLE_RATE).

(** [total_samples = int(duration * SAMPLE_RATE)] *)
Definition total_samples_of (duration : Q) : Z :=
  py_int (duration * inject_Z SAMPLE_RATE).

(** [chord_duration = duration / len(chords)];
    [samples_per_chord = int(chord_duration * SAMPLE_RATE)] *)
Definition samples_per_chord_of (duration : Q) (chords : list (list Q)) : Z :=
  let chord_duration := duration / inject_Z (Z.of_nat (length chords)) in
  py_int (chord_duration * inject_Z SAMPLE_RATE).

(** The body of the crossfade [if/elif]. *)
Definition crossfade (samples_per_chord i : Z) (sample : Q) : Q :=
  if (i <? crossfade_samples)%Z then
    sample * (inject_Z i / inject_Z crossfade_samples)
  else if (samples_per_chord - crossfade_samples <? i)%Z then
    sample * (inject_Z (samples_per_chord - i) / inject_Z crossfade_samples)
  else sample.

(** [sample = max(-0.8, min(0.8, sample))] *)
Definition clamp08 (sample : Q) : Q := py_max (-0.8) (py_min 0.8 sample).

(** Post-padding loop [while len(audio_data) < total_samples: append((0,0))].
    Each iteration grows the list by one, so [Z.to_nat total_samples]
    iterations always suffice: the fuel never runs out first. *)
Fixpoint pad_loop (fuel : nat) (total_samples : Z) (audio_data : list (Q * Q))
  : list (Q * Q) :=
  match fuel with
  | O => audio_data
  | S fuel' =>
      if (Z.of_nat (length audio_data) <? total_samples)%Z
      then pad_loop fuel' total_samples (audio_data ++ [(0, 0)])
      else audio_data
  end.

Definition pad_samples (total_samples : Z) (audio_data : list (Q * Q)) : list (Q * Q) :=
  pad_loop (Z.to_nat total_samples) total_samples audio_data.

(** The two global fade loops, mutating [audio_data] in place.  The
    divisors [fade_in_samples] and [fade_out_samples] are positive
    constants, so Python's [ZeroDivisionError] is unreachable. *)
Definition fade_in_body (i : Z) (audio_data : list (Q * Q)) : PyM (list (Q * Q)) :=
  let ratio := inject_Z i / inject_Z fade_in_samples in
  x <- py_getitem audio_data i;
  py_setitem audio_data i (fst x * ratio, snd x * ratio).

Definition fade_out_body (i : Z) (audio_data : list (Q * Q)) : PyM (list (Q * Q)) :=
  let idx := (Z.of_nat (length audio_data) - 1 - i)%Z in
  let ratio := inject_Z i / inject_Z fade_out_samples in
  x <- py_getitem audio_data idx;
  py_setitem audio_data idx (fst x * ratio, snd x * ratio).

Definition apply_fades (audio_data : list (Q * Q)) : PyM (list (Q * Q)) :=
  audio_data <- for_in fade_in_body
    (py_range (Z.min fade_in_samples (Z.of_nat (length audio_data)))) audio_data;
  for_in fade_out_body
    (py_range (Z.min fade_out_samples (Z.of_nat (length audio_data)))) audio_data.

(** [struct.pack("<hh", l, r)]: raises [struct.error] out of range. *)
Definition pack_hh (l r : Z) : PyM (Z * Z) :=
  if ((-32768 <=? l) && (l <=? 32767) && (-32768 <=? r) && (r <=? 32767))%Z
  then ret (l, r) else raise StructError.

(** [max(-32768, min(32767, v))] on ints. *)
Definition clamp16 (v : Z) : Z := Z.max (-32768) (Z.min 32767 v).

(** [int(x * 32767)] followed by the clamp. *)
Definition quantize (x : Q) : Z := clamp16 (py_int (x * 32767)).

(** The frame-writing loop: the frames of the data chunk, in order. *)
Fixpoint write_frames (frames : list (Q * Q)) : PyM (list (Z * Z)) :=
  match frames with
  | [] => ret []
  | (left_f, right_f) :: rest =>
      let left_int := quantize left_f in
      let right_int := quantize right_f in
      fr <- pack_hh left_int right_int;
      rest' <- write_frames rest;
      ret (fr :: rest')
  end.

Section Synthesizer.

(** [math.sin] and [math.pi]. *)
Variable py_sin : Q -> Q.
Variable pi : Q.

(** Harmonic sum of the inner [for freq in actual_chord] loop, then the
    LFO wobble. *)
Definition chord_sample (actual_chord : list Q) (t : Q) : Q :=
  let sample :=
    fold_left (fun sample freq =>
      let sample := sample + 0.15 * py_sin (2 * pi * freq * t) in
      let sample := sample + 0.05 * py_sin (2 * pi * freq * 2 * t) in
      sample + 0.08 * py_sin (2 * pi * freq * 0.5 * t))
      actual_chord 0 in
  let lfo := 1.0 + 0.03 * py_sin (2 * pi * 0.2 * t) in
  sample * lfo.

(** One iteration of [for i in range(samples_per_chord)]. *)
Definition chord_frame (samples_per_chord : Z) (actual_chord : list Q) (i : Z) : Q * Q :=
  let t := inject_Z i / inject_Z SAMPLE_RATE in
  let sample := chord_sample actual_chord t in
  let sample := crossfade samples_per_chord i sample in
  let sample := clamp08 sample in
  let left := sample in
  let right := sample * 0.95 in
  (left, right).

(** One iteration of [for chord_idx, chord_freqs in enumerate(chords)]:
    [actual_chord = chords[chord_idx % len(chords)]], then the frames of
    the inner loop are appended to [audio_data]. *)
Definition render_step (chords : list (list Q)) (samples_per_chord : Z)
    (audio_data : list (Q * Q)) (p : nat * list Q) : list (Q * Q) :=
  let actual_chord := nth (Nat.modulo (fst p) (length chords)) chords [] in
  audio_data ++ map (chord_frame samples_per_chord actual_chord) (py_range samples_per_chord).

Definition render_chords (chords : list (list Q)) (samples_per_chord : Z) : list (Q * Q) :=
  fold_left (render_step chords samples_per_chord) (enumerate chords) [].

(** [audio_data] just before the WAV file is opened. *)
Definition synth_buffer (duration : Q) (mood : string) : PyM (list (Q * Q)) :=
  let chords := mood_chords_get mood in
  let total_samples := total_samples_of duration in
  let samples_per_chord := samples_per_chord_of duration chords in
  let audio_data := render_chords chords samples_per_chord in
  let audio_data := pad_samples total_samples audio_data in
  apply_fades audio_data.

(** The frames written by [_synthesize_ambient]. *)
Definition synthesize_ambient (duration : Q) (mood : string) : PyM (list (Z * Z)) :=
  audio_data <- synth_buffer duration mood;
  write_frames (py_slice_upto audio_data (total_samples_of duration)).

End Synthesizer.

(* ------------------------------------------------------------------ *)
(** ** The world: global interpreter state and the file system *)

Record world := mkWorld {
  rng_seed : option Z;                        (** state of the [random] module *)
  clock : Z;                                  (** wall-clock time *)
  music_dir : option (list string);           (** [config.MUSIC_DIR]: [None] if absent, else its listing *)
  dirs : list string;                         (** directories created *)
  files : list (string * list (Z * Z))        (** WAV files written: path and frames *)
}.

Definition set_seed (s : Z) (w : world) : world :=
  mkWorld (Some s) (clock w) (music_dir w) (dirs w) (files w).
Definition add_dir (d : string) (w : world) : world :=
  mkWorld (rng_seed w) (clock w) (music_dir w) (d :: dirs w) (files w).
Definition add_file (path : string) (frames : list (Z * Z)) (w : world) : world :=
  mkWorld (rng_seed w) (clock w) (music_dir w) (dirs w) ((path, frames) :: files w).

(** [_synthesize_ambient(output_path, duration, mood)] as a world
    transformer: [random.seed(42)], then the WAV file is written. *)
Definition synthesize_ambient_io (py_sin : Q -> Q) (pi : Q)
    (output_path : string) (duration : Q) (mood : string) (w : world)
  : world * PyM unit :=
  let w := set_seed 42 w in
  match synthesize_ambient py_sin pi duration mood with
  | inr frames => (add_file output_path frames w, ret tt)
  | inl e => (w, raise e)
  end.

(** A glob pattern of the form ["*" ++ suffix] as used by [_find_custom_music]. *)
Definition glob_match (pat name : string) : bool :=
  match pat with
  | String "*" suf => ends_with suf name
  | _ => String.eqb pat name
  end.

Definition music_exts : list string := ["*.mp3"; "*.wav"; "*.ogg"; "*.m4a"]%string.

Fixpoint find_in_exts (exts : list string) (listing : list string) : option string :=
  match exts with
  | [] => None
  | ext :: rest =>
      match filter (glob_match ext) listing with
      | f :: _ => Some f
      | [] => find_in_exts rest listing
      end
  end.

(** [_find_custom_music()] *)
Definition find_custom_music (w : world) : option string :=
  match music_dir w with
  | None => None
  | Some listing => find_in_exts music_exts listing
  end.

(** The script dict: its ["audio_tone"] (if present) and, per scene, its
    ["duration"] (if present). *)
Record script := mkScript {
  audio_tone : option string;
  scenes : list (option Q)
}.

(** [generate_background_music(script, output_dir, duration)] on a script
    whose ["audio_tone"] is absent or a string and whose ["scenes"] carry
    absent or numeric durations, when the OS accepts the directory and the
    file; [generate_background_music_full] below covers every script and
    the OS failures, and [X18_restricted_model] shows the two agree here. *)
Definition generate_background_music (py_lower : string -> string) (py_sin : Q -> Q) (pi : Q)
    (s : script) (output_dir : string) (duration : option Q) (w : world)
  : world * PyM string :=
  let w := add_dir output_dir w in
  match find_custom_music w with
  | Some custom_music => (w, ret custom_music)
  | None =>
      let duration :=
        match duration with
        | Some d => d
        | None =>
            fold_left Qplus
              (map (fun sd => match sd with Some d => d | None => SCENE_DURATION end) (scenes s)) 0
            + 2.0
        end in
      let tone := py_lower (match audio_tone s with Some t => t | None => "calm"%string end) in
      let mood := detect_mood py_lower tone in
      let output_path := (output_dir ++ "/background_music.wav")%string in
      let (w, r) := synthesize_ambient_io py_sin pi output_path duration mood w in
      (w, _ <- r; ret output_path)
  end.

(* ------------------------------------------------------------------ *)
(** ** [generate_background_music] on any script dict, with its failure paths

    [generate_background_music] above takes a script whose ["audio_tone"]
    is absent or a string and whose ["scenes"] are present with absent or
    numeric durations, and a file system that accepts the directory and
    the file.  The definition below drops those restrictions. *)

(** The values a script entry can hold, as far as the function inspects
    them: a number, a string, or anything else ([None], a list, ...). *)
Inductive pyval := PyNum (q : Q) | PyStr (s : string) | PyOther.

(** A script dict: its ["audio_tone"] and ["scenes"] entries, if present;
    each scene dict is given by its ["duration"] entry, if present. *)
Record pyscript := mkPyScript {
  py_audio_tone : option pyval;
  py_scenes : option (list (option pyval))
}.

(** Exceptions leaving [generate_background_music]. *)
Inductive gen_exc :=
  | AttributeError            (** [.lower()] on a non-string [audio_tone] *)
  | KeyError                  (** [script["scenes"]] missing *)
  | TypeError                 (** [sum] meets a non-number *)
  | OSError                   (** [mkdir] or [wave.open] refused *)
  | SynthError (e : py_exc).  (** raised inside [_synthesize_ambient] *)

(** [sum(s.get("duration", config.SCENE_DURATION) for s in scenes)]:
    [sum] adds from [0] and raises [TypeError] on a non-number. *)
Fixpoint py_sum_durations (acc : Q) (scenes : list (option pyval)) : gen_exc + Q :=
  match scenes with
  | [] => inr acc
  | sd :: r =>
      match sd with
      | None => py_sum_durations (acc + SCENE_DURATION) r
      | Some (PyNum q) => py_sum_durations (acc + q) r
      | Some _ => inl TypeError
      end
  end.

(** Lines 98-100: the duration, given or derived from the scenes. *)
Definition script_duration (s : pyscript) (duration : option Q) : gen_exc + Q :=
  match duration with
  | Some d => inr d
  | None =>
      match py_scenes s with
      | None => inl KeyError
      | Some scenes =>
          match py_sum_durations 0 scenes with
          | inr d => inr (d + 2.0)
          | inl e => inl e
          end
      end
  end.

(** Line 103: [script.get("audio_tone", "calm").lower()]. *)
Definition script_tone (py_lower : string -> string) (s : pyscript) : gen_exc + string :=
  match py_audio_tone s with
  | None => inr (py_lower "calm"%string)
  | Some (PyStr t) => inr (py_lower t)
  | Some _ => inl AttributeError
  end.

(** [_synthesize_ambient] when [wave.open] may be refused ([open_ok]). *)
Definition synthesize_ambient_os (py_sin : Q -> Q) (pi : Q) (open_ok : string -> bool)
    (output_path : string) (duration : Q) (mood : string) (w : world)
  : world * (gen_exc + unit) :=
  let w := set_seed 42 w in
  match synthesize_ambient py_sin pi duration mood with
  | inl e => (w, inl (SynthError e))
  | inr frames =>
      if open_ok output_path then (add_file output_path frames w, inr tt)
      else (w, inl OSError)
  end.

(** [generate_background_music(script, output_dir, duration)];
    [mkdir_ok] tells whether the OS lets [mkdir] create a directory and
    [temp_dir] is [config.TEMP_DIR]. *)
Definition generate_background_music_full (py_lower : string -> string)
    (py_sin : Q -> Q) (pi : Q) (mkdir_ok open_ok : string -> bool) (temp_dir : string)
    (s : pyscript) (output_dir : option string) (duration : option Q) (w : world)
  : world * (gen_exc + string) :=
  let output_dir := match output_dir with Some d => d | None => temp_dir end in
  if negb (mkdir_ok output_dir) then (w, inl OSError) else
  let w := add_dir output_dir w in
  match find_custom_music w with
  | Some custom_music => (w, inr custom_music)
  | None =>
      match script_duration s duration with
      | inl e => (w, inl e)
      | inr duration =>
          match script_tone py_lower s with
          | inl e => (w, inl e)
          | inr tone =>
              let mood := detect_mood py_lower tone in
              let output_path := (output_dir ++ "/background_music.wav")%string in
              let (w, r) := synthesize_ambient_os py_sin pi open_ok output_path duration mood w in
              (w, match r with inl e => inl e | inr _ => inr output_path end)
          end
      end
  end.





(* ------------------------------------------------------------------ *)
(** ** Predicates and spec-side definitions used in the statements *)

(** Both channels of a frame lie in [-0.8, 0.8]. *)
Definition frame_in_range (f : Q * Q) : Prop :=
  -0.8 <= fst f <= 0.8 /\ -0.8 <= snd f <= 0.8.

(** Both channels of a quantized frame are signed 16-bit values. *)
Definition pcm16_in_range (f : Z * Z) : Prop :=
  (-32768 <= fst f <= 32767)%Z /\ (-32768 <= snd f <= 32767)%Z.

(** The pre-crossfade sample as the spec (4.3) words it: the sum over the
    chord's frequencies of the three weighted sines, times the LFO factor. *)
Definition spec_pre_sample (py_sin : Q -> Q) (pi : Q) (chord : list Q) (t : Q) : Q :=
  fold_right (fun f acc =>
      0.15 * py_sin (2 * pi * f * t)
      + 0.05 * py_sin (2 * pi * (2 * f) * t)
      + 0.08 * py_sin (2 * pi * (0.5 * f) * t) + acc) 0 chord
  * (1.0 + 0.03 * py_sin (2 * pi * 0.2 * t)).

(** The crossfade as the spec (4.3) words it, read literally: the first
    [crossfade_samples] samples get the fade-in ramp, the last
    [crossfade_samples] samples get the fade-out ramp, and a sample in both
    windows gets both. *)
Definition crossfade_both (samples_per_segment i : Z) (sample : Q) : Q :=
  let cf := crossfade_samples in
  let sample :=
    if (i <? cf)%Z then sample * (inject_Z i / inject_Z cf) else sample in
  if (samples_per_segment - cf <=? i)%Z
  then sample * (inject_Z (samples_per_segment - i) / inject_Z cf)
  else sample.

(** A frame with both channels multiplied by [r], as the fade loops do. *)
Definition scale_frame (f : Q * Q) (r : Q) : Q * Q := (fst f * r, snd f * r).

(** The frame at index [j] of an [n]-frame buffer once both fade loops have
    run over it: the fade-in ramp if [j < min(fade_in_samples, n)], then the
    fade-out ramp if [n - 1 - j < min(fade_out_samples, n)]. *)
Definition faded_frame (n j : nat) (f : Q * Q) : Q * Q :=
  let nz := Z.of_nat n in
  let jz := Z.of_nat j in
  let f :=
    if (jz <? Z.min fade_in_samples nz)%Z
    then scale_frame f (inject_Z jz / inject_Z fade_in_samples) else f in
  let k := (nz - 1 - jz)%Z in
  if (k <? Z.min fade_out_samples nz)%Z
  then scale_frame f (inject_Z k / inject_Z fade_out_samples) else f.

(** A frame whose two channels are zero. *)
Definition silent (f : Q * Q) : Prop := fst f == 0 /\ snd f == 0.

(** Right channel is the left one scaled by 0.95. *)
Definition stereo_ok (f : Q * Q) : Prop := snd f == fst f * 0.95.

(** The frames handed to the fade loops: the rendered chords, padded. *)
Definition pre_fade (py_sin : Q -> Q) (pi d : Q) (m : string) : list (Q * Q) :=
  let chords := mood_chords_get m in
  pad_samples (total_samples_of d)
    (render_chords py_sin pi chords (samples_per_chord_of d chords)).

(* ================================================================== *)
(** * Lemmas *)

(** ** Python integer conversion *)

Lemma py_int_floor (x : Q) : 0 <= x -> py_int x = Qfloor x.
Proof.
  destruct x as [n d]; unfold py_int, Qfloor, Qle; simpl; intros H.
  apply Z.quot_div_nonneg; lia.
Qed.

Lemma py_int_nonpos (x : Q) : x <= 0 -> (py_int x <= 0)%Z.
Proof.
  destruct x as [n d]; unfold py_int, Qle; simpl; intros H.
  replace n with (- (- n))%Z by lia.
  rewrite Z.quot_opp_l by lia.
  pose proof (Z.quot_pos (- n) (Zpos d)); lia.
Qed.

Lemma Qfloor_ge (z : Z) (x : Q) : inject_Z z <= x -> (z <= Qfloor x)%Z.
Proof.
  intros H. rewrite <- (Qfloor_Z z). now apply Qfloor_resp_le.
Qed.

(** ** The chord table *)

Lemma assoc_get_In {A} (k : string) (d : list (string * A)) (v : A) :
  assoc_get k d = Some v -> In (k, v) d.
Proof.
  induction d as [|[k' v'] r IH]; simpl; [discriminate|].
  destruct (String.eqb_spec k k') as [->|_].
  - intros [= ->]. now left.
  - intros H. right. now apply IH.
Qed.

Lemma mood_chords_length (mood : string) : length (mood_chords_get mood) = 4%nat.
Proof.
  unfold mood_chords_get.
  destruct (assoc_get mood MOOD_CHORDS) as [c|] eqn:E; [|reflexivity].
  apply assoc_get_In in E. simpl in E.
  repeat (destruct E as [E|E]; [injection E as _ <-; reflexivity|]). destruct E.
Qed.

(** ** Lists *)

Lemma length_py_range (n : Z) : length (py_range n) = Z.to_nat n.
Proof. unfold py_range. now rewrite length_map, length_seq. Qed.

Lemma In_py_range (n i : Z) : In i (py_range n) <-> (0 <= i < n)%Z.
Proof.
  unfold py_range. rewrite in_map_iff. split.
  - intros [k [<- Hk]]. apply in_seq in Hk. lia.
  - intros H. exists (Z.to_nat i). split; [lia|]. apply in_seq. lia.
Qed.

Lemma nth_error_py_range (n : Z) (k : nat) :
  (k < Z.to_nat n)%nat -> nth_error (py_range n) k = Some (Z.of_nat k).
Proof.
  intros H. unfold py_range. rewrite nth_error_map, nth_error_seq.
  destruct (Nat.ltb_spec k (Z.to_nat n)); [reflexivity|lia].
Qed.

Lemma length_enumerate {A} (xs : list A) : length (enumerate xs) = length xs.
Proof. unfold enumerate. rewrite length_combine, length_seq. lia. Qed.

Lemma nth_error_combine_seq {A} (xs : list A) (k s : nat) :
  nth_error (combine (seq k (length xs)) xs) s
  = option_map (fun c => (k + s, c)%nat) (nth_error xs s).
Proof.
  revert k s; induction xs as [|x r IH]; intros k s; simpl.
  - now destruct s.
  - destruct s as [|s]; simpl.
    + now rewrite Nat.add_0_r.
    + rewrite IH. destruct (nth_error r s); simpl; [f_equal; f_equal; lia|reflexivity].
Qed.

Lemma fold_left_app_concat {A B} (g : A -> list B) (ps : list A) (acc : list B) :
  fold_left (fun acc p => acc ++ g p) ps acc = acc ++ concat (map g ps).
Proof.
  revert acc; induction ps as [|p r IH]; intros acc; simpl.
  - now rewrite app_nil_r.
  - rewrite IH. now rewrite app_assoc.
Qed.

Lemma length_concat_uniform {A B} (g : A -> list B) (n : nat) (ps : list A) :
  (forall p, length (g p) = n) -> length (concat (map g ps)) = (length ps * n)%nat.
Proof.
  intros Hg. induction ps as [|p r IH]; simpl; [reflexivity|].
  rewrite length_app, Hg, IH. lia.
Qed.

Lemma nth_error_concat_uniform {A B} (g : A -> list B) (n : nat) (ps : list A) (s i : nat) :
  (forall p, length (g p) = n) -> (i < n)%nat ->
  nth_error (concat (map g ps)) (s * n + i)
  = match nth_error ps s with Some p => nth_error (g p) i | None => None end.
Proof.
  intros Hg Hi. revert s; induction ps as [|p r IH]; intros s; simpl.
  - destruct s as [|s']; simpl; now rewrite nth_error_nil.
  - destruct s as [|s]; simpl.
    + rewrite nth_error_app1 by (rewrite Hg; lia). reflexivity.
    + rewrite nth_error_app2 by (rewrite Hg; lia). rewrite Hg.
      replace (n + s * n + i - n)%nat with (s * n + i)%nat by lia. apply IH.
Qed.

Lemma length_list_set {A} (xs : list A) (k : nat) (a : A) :
  length (list_set xs k a) = length xs.
Proof. revert k; induction xs; intros [|k]; simpl; auto. Qed.

Lemma Forall_list_set {A} (P : A -> Prop) (xs : list A) (k : nat) (a : A) :
  Forall P xs -> P a -> Forall P (list_set xs k a).
Proof.
  revert k; induction xs as [|x r IH]; intros [|k] Hx Ha; simpl; auto;
    inversion Hx; subst; constructor; auto.
Qed.

Lemma py_getitem_ok {A} (xs : list A) (i : Z) :
  (0 <= i < Z.of_nat (length xs))%Z ->
  exists x, py_getitem xs i = inr x /\ In x xs.
Proof.
  intros H. unfold py_getitem.
  destruct (Z.ltb_spec i 0); [lia|].
  destruct (Z.leb_spec 0 i); [|lia]. destruct (Z.ltb_spec i (Z.of_nat (length xs))); [|lia].
  simpl. destruct (nth_error xs (Z.to_nat i)) as [x|] eqn:E.
  - exists x. split; [reflexivity|]. eapply nth_error_In; eauto.
  - apply nth_error_None in E. lia.
Qed.

Lemma py_setitem_ok {A} (xs : list A) (i : Z) (a : A) :
  (0 <= i < Z.of_nat (length xs))%Z ->
  py_setitem xs i a = inr (list_set xs (Z.to_nat i) a).
Proof.
  intros H. unfold py_setitem.
  destruct (Z.ltb_spec i 0); [lia|].
  destruct (Z.leb_spec 0 i); [|lia]. destruct (Z.ltb_spec i (Z.of_nat (length xs))); [|lia].
  reflexivity.
Qed.

Lemma for_in_inv {S} (P : S -> Prop) (body : Z -> S -> PyM S) (is : list Z) (s : S) :
  (forall i s, In i is -> P s -> exists s', body i s = inr s' /\ P s') ->
  P s -> exists s', for_in body is s = inr s' /\ P s'.
Proof.
  revert s; induction is as [|i r IH]; intros s Hbody Hs; simpl.
  - now exists s.
  - destruct (Hbody i s (or_introl eq_refl) Hs) as [s1 [E1 H1]].
    rewrite E1; simpl. apply IH; auto.
    intros j t Hj Ht. apply Hbody; auto. now right.
Qed.

(** ** Amplitudes *)

Lemma Qle_bool_cases (a b : Q) :
  (Qle_bool a b = true /\ a <= b) \/ (Qle_bool a b = false /\ b < a).
Proof.
  destruct (Qle_bool a b) eqn:E.
  - left. split; [reflexivity|]. now apply Qle_bool_iff.
  - right. split; [reflexivity|]. apply Qnot_le_lt. intros H.
    apply Qle_bool_iff in H. congruence.
Qed.

Ltac case_Qle_bool :=
  repeat match goal with
  | |- context [Qle_bool ?a ?b] =>
      destruct (Qle_bool_cases a b) as [[-> ?] | [-> ?]]; simpl
  end.

Lemma clamp08_range (x : Q) : -0.8 <= clamp08 x <= 0.8.
Proof.
  unfold clamp08, py_min.
  destruct (Qle_bool_cases 0.8 x) as [[-> ?] | [-> ?]]; simpl;
    unfold py_max; case_Qle_bool; lra.
Qed.

Lemma ratio_range (i n : Z) : (0 <= i <= n)%Z -> (0 < n)%Z ->
  0 <= inject_Z i / inject_Z n <= 1.
Proof.
  intros Hi Hn.
  assert (H0 : 0 <= inject_Z i) by (change 0 with (inject_Z 0); rewrite <- Zle_Qle; lia).
  assert (H1 : inject_Z i <= inject_Z n) by (rewrite <- Zle_Qle; lia).
  assert (H2 : 0 < inject_Z n) by (change 0 with (inject_Z 0); rewrite <- Zlt_Qlt; lia).
  split.
  - apply Qle_shift_div_l; [exact H2|]. lra.
  - apply Qle_shift_div_r; [exact H2|]. lra.
Qed.

Lemma scale_in_range (f : Q * Q) (r : Q) :
  frame_in_range f -> 0 <= r <= 1 -> frame_in_range (fst f * r, snd f * r).
Proof.
  destruct f as [l rr]; unfold frame_in_range; simpl. intros [[? ?] [? ?]] [? ?].
  repeat split; nra.
Qed.

Lemma chord_frame_in_range py_sin pi spc chord i :
  frame_in_range (chord_frame py_sin pi spc chord i).
Proof.
  unfold chord_frame, frame_in_range; simpl.
  pose proof (clamp08_range (crossfade spc i (chord_sample py_sin pi chord (inject_Z i / inject_Z SAMPLE_RATE)))).
  split; [lra|]. split; nra.
Qed.

(** ** Rendering the chords *)

Lemma render_chords_concat py_sin pi chords spc :
  render_chords py_sin pi chords spc
  = concat (map (fun p : nat * list Q =>
      map (chord_frame py_sin pi spc (nth (Nat.modulo (fst p) (length chords)) chords []))
          (py_range spc)) (enumerate chords)).
Proof.
  unfold render_chords, render_step.
  now rewrite fold_left_app_concat.
Qed.

Lemma render_chords_length py_sin pi chords spc :
  length (render_chords py_sin pi chords spc) = (length chords * Z.to_nat spc)%nat.
Proof.
  rewrite render_chords_concat, (length_concat_uniform _ (Z.to_nat spc)).
  - now rewrite length_enumerate.
  - intros p. now rewrite length_map, length_py_range.
Qed.

Lemma render_chords_in_range py_sin pi chords spc :
  Forall frame_in_range (render_chords py_sin pi chords spc).
Proof.
  rewrite render_chords_concat. apply Forall_forall. intros x Hx.
  apply in_concat in Hx. destruct Hx as [l [Hl Hx]].
  apply in_map_iff in Hl. destruct Hl as [p [<- _]].
  apply in_map_iff in Hx. destruct Hx as [i [<- _]].
  apply chord_frame_in_range.
Qed.

(** ** Padding *)

Lemma pad_loop_spec fuel tot (l : list (Q * Q)) :
  (Z.to_nat tot <= length l + fuel)%nat ->
  pad_loop fuel tot l = l ++ repeat (0, 0) (Z.to_nat tot - length l).
Proof.
  revert l; induction fuel as [|fuel IH]; intros l H; simpl.
  - replace (Z.to_nat tot - length l)%nat with O by lia. now rewrite app_nil_r.
  - destruct (Z.ltb_spec (Z.of_nat (length l)) tot).
    + rewrite IH by (rewrite length_app; simpl; lia).
      rewrite <- app_assoc. f_equal. rewrite length_app; simpl.
      replace (Z.to_nat tot - length l)%nat with (S (Z.to_nat tot - (length l + 1)))%nat by lia.
      reflexivity.
    + replace (Z.to_nat tot - length l)%nat with O by lia. now rewrite app_nil_r.
Qed.

Lemma pad_samples_spec tot (l : list (Q * Q)) :
  pad_samples tot l = l ++ repeat (0, 0) (Z.to_nat tot - length l).
Proof. unfold pad_samples. apply pad_loop_spec. lia. Qed.

Lemma pad_samples_length tot (l : list (Q * Q)) :
  length (pad_samples tot l) = Nat.max (length l) (Z.to_nat tot).
Proof. rewrite pad_samples_spec, length_app, repeat_length. lia. Qed.

Lemma pad_samples_in_range tot (l : list (Q * Q)) :
  Forall frame_in_range l -> Forall frame_in_range (pad_samples tot l).
Proof.
  intros H. rewrite pad_samples_spec. apply Forall_app. split; [exact H|].
  apply Forall_forall. intros x Hx. apply repeat_spec in Hx. subst x.
  unfold frame_in_range; simpl. lra.
Qed.

(** ** The global fades *)

Lemma fade_in_samples_val : fade_in_samples = 44100%Z.
Proof. reflexivity. Qed.

Lemma fade_out_samples_val : fade_out_samples = 88200%Z.
Proof. reflexivity. Qed.

Lemma crossfade_samples_val : crossfade_samples = 22050%Z.
Proof. reflexivity. Qed.

(** The invariant of both fade loops: the length is unchanged, and the
    amplitude bound, if it held on entry, still holds. *)
Definition fade_inv (l0 : list (Q * Q)) (l : list (Q * Q)) : Prop :=
  length l = length l0 /\ (Forall frame_in_range l0 -> Forall frame_in_range l).

Lemma fade_body_step (l0 l : list (Q * Q)) (idx i n : Z) :
  (0 <= idx < Z.of_nat (length l))%Z -> (0 <= i <= n)%Z -> (0 < n)%Z ->
  fade_inv l0 l ->
  exists l', (x <- py_getitem l idx;
              py_setitem l idx (fst x * (inject_Z i / inject_Z n),
                                snd x * (inject_Z i / inject_Z n))) = inr l'
             /\ fade_inv l0 l'.
Proof.
  intros Hidx Hi Hn [Hlen Hall].
  destruct (py_getitem_ok l idx Hidx) as [x [-> Hx]]; simpl.
  rewrite py_setitem_ok by exact Hidx.
  eexists; split; [reflexivity|]. split.
  - now rewrite length_list_set.
  - intros H0. specialize (Hall H0). apply Forall_list_set; [exact Hall|].
    apply scale_in_range; [|now apply ratio_range].
    rewrite Forall_forall in Hall. now apply Hall.
Qed.

Lemma apply_fades_ok (l : list (Q * Q)) :
  exists l', apply_fades l = inr l' /\ fade_inv l l'.
Proof.
  unfold apply_fades.
  destruct (for_in_inv (fade_inv l) fade_in_body
              (py_range (Z.min fade_in_samples (Z.of_nat (length l)))) l)
    as [l1 [-> H1]].
  { intros i s Hi Hs. apply In_py_range in Hi. unfold fade_in_body.
    pose proof Hs as [Hlen _].
    apply (fade_body_step l s i i fade_in_samples); [lia | lia | rewrite fade_in_samples_val; lia | exact Hs]. }
  { split; auto. }
  simpl.
  apply (for_in_inv (fade_inv l) fade_out_body); [|exact H1].
  intros i s Hi Hs. apply In_py_range in Hi. unfold fade_out_body.
  destruct Hs as [Hlen Hall]. destruct H1 as [Hlen1 _].
  apply (fade_body_step l s _ i fade_out_samples);
    [lia | lia | rewrite fade_out_samples_val; lia | split; assumption].
Qed.

(** ** The container writer *)

Lemma clamp16_range (v : Z) : (-32768 <= clamp16 v <= 32767)%Z.
Proof. unfold clamp16. lia. Qed.

Lemma write_frames_ok (frames : list (Q * Q)) :
  exists out, write_frames frames = inr out /\ length out = length frames
              /\ Forall pcm16_in_range out
              /\ out = map (fun f => (quantize (fst f), quantize (snd f))) frames.
Proof.
  induction frames as [|[l r] rest IH]; simpl.
  - exists []. repeat split; constructor.
  - destruct IH as [out [-> [Hlen [Hall Hmap]]]].
    unfold pack_hh.
    pose proof (clamp16_range (py_int (l * 32767))).
    pose proof (clamp16_range (py_int (r * 32767))).
    unfold quantize.
    destruct (Z.leb_spec (-32768) (clamp16 (py_int (l * 32767)))); [|lia].
    destruct (Z.leb_spec (clamp16 (py_int (l * 32767))) 32767); [|lia].
    destruct (Z.leb_spec (-32768) (clamp16 (py_int (r * 32767)))); [|lia].
    destruct (Z.leb_spec (clamp16 (py_int (r * 32767))) 32767); [|lia].
    simpl. eexists; split; [reflexivity|]. simpl. split; [now rewrite Hlen|]. split.
    + constructor; [unfold pcm16_in_range; simpl; lia | exact Hall].
    + now rewrite Hmap.
Qed.

(** ** Segment and total sample counts *)

Lemma chord_count_Q (m : string) :
  inject_Z (Z.of_nat (length (mood_chords_get m))) = 4.
Proof. now rewrite mood_chords_length. Qed.

Lemma total_samples_floor (d : Q) : 0 < d ->
  total_samples_of d = Qfloor (d * 44100).
Proof.
  intros Hd. unfold total_samples_of. apply py_int_floor.
  unfold SAMPLE_RATE. simpl inject_Z. lra.
Qed.

Lemma samples_per_chord_floor (d : Q) (m : string) : 0 < d ->
  samples_per_chord_of d (mood_chords_get m) = Qfloor (d / 4 * 44100).
Proof.
  intros Hd. unfold samples_per_chord_of. rewrite chord_count_Q.
  apply py_int_floor. change (0 <= d * (1#4) * (44100#1)). lra.
Qed.

Lemma segments_fit_pos (d : Q) (m : string) : 0 < d ->
  (4 * samples_per_chord_of d (mood_chords_get m) <= total_samples_of d)%Z.
Proof.
  intros Hd. rewrite samples_per_chord_floor, total_samples_floor by exact Hd.
  apply Qfloor_ge. rewrite inject_Z_mult.
  pose proof (Qfloor_le (d / 4 * 44100)) as H.
  change (d / 4 * 44100) with (d * (1#4) * (44100#1)) in *.
  change (inject_Z 4) with (4#1). lra.
Qed.

Lemma segments_fit (d : Q) (m : string) :
  (4 * Z.to_nat (samples_per_chord_of d (mood_chords_get m))
   <= Z.to_nat (total_samples_of d))%nat.
Proof.
  destruct (Qlt_le_dec 0 d) as [Hd | Hd].
  - pose proof (segments_fit_pos d m Hd).
    lia.
  - assert (H : (samples_per_chord_of d (mood_chords_get m) <= 0)%Z).
    { unfold samples_per_chord_of. rewrite chord_count_Q. apply py_int_nonpos.
      change (d * (1#4) * (44100#1) <= 0). lra. }
    lia.
Qed.

Lemma render_mood_length py_sin pi (d : Q) (m : string) :
  length (render_chords py_sin pi (mood_chords_get m) (samples_per_chord_of d (mood_chords_get m)))
  = (4 * Z.to_nat (samples_per_chord_of d (mood_chords_get m)))%nat.
Proof. now rewrite render_chords_length, mood_chords_length. Qed.

(** The buffer is always produced, has [int(duration * SAMPLE_RATE)]
    frames, and respects the amplitude bound. *)
Lemma synth_buffer_ok py_sin pi (d : Q) (m : string) :
  exists buf, synth_buffer py_sin pi d m = inr buf
              /\ length buf = Z.to_nat (total_samples_of d)
              /\ Forall frame_in_range buf.
Proof.
  unfold synth_buffer.
  destruct (apply_fades_ok
              (pad_samples (total_samples_of d)
                 (render_chords py_sin pi (mood_chords_get m)
                    (samples_per_chord_of d (mood_chords_get m)))))
    as [buf [-> [Hlen Hall]]].
  exists buf. split; [reflexivity|]. split.
  - rewrite Hlen, pad_samples_length, render_mood_length.
    pose proof (segments_fit d m). lia.
  - apply Hall. apply pad_samples_in_range. apply render_chords_in_range.
Qed.

Lemma slice_full {A} (l : list A) (n : Z) :
  length l = Z.to_nat n -> py_slice_upto l n = l.
Proof.
  intros H. unfold py_slice_upto.
  destruct (Z.leb_spec 0 n).
  - rewrite <- H. apply firstn_all.
  - assert (length l = O) by lia. destruct l; [apply firstn_nil|discriminate].
Qed.

Lemma synthesize_ambient_ok py_sin pi (d : Q) (m : string) :
  exists buf frames,
    synth_buffer py_sin pi d m = inr buf
    /\ synthesize_ambient py_sin pi d m = inr frames
    /\ length buf = Z.to_nat (total_samples_of d)
    /\ Forall frame_in_range buf
    /\ frames = map (fun f => (quantize (fst f), quantize (snd f))) buf
    /\ Forall pcm16_in_range frames.
Proof.
  destruct (synth_buffer_ok py_sin pi d m) as [buf [Hb [Hlen Hall]]].
  destruct (write_frames_ok buf) as [out [Hw [Hlo [Hpcm Hmap]]]].
  exists buf, out. unfold synthesize_ambient. rewrite Hb; simpl.
  rewrite slice_full by exact Hlen. rewrite Hw.
  repeat split; auto.
Qed.

(** ** The harmonic formula of a frame *)

Section Formula.
Variable py_sin : Q -> Q.
Variable pi : Q.
Hypothesis sin_proper : forall x y, x == y -> py_sin x == py_sin y.

Lemma harmonic_sum_spec (chord : list Q) (t acc : Q) :
  fold_left (fun sample freq =>
      let sample := sample + 0.15 * py_sin (2 * pi * freq * t) in
      let sample := sample + 0.05 * py_sin (2 * pi * freq * 2 * t) in
      sample + 0.08 * py_sin (2 * pi * freq * 0.5 * t)) chord acc
  == acc + fold_right (fun f acc =>
      0.15 * py_sin (2 * pi * f * t)
      + 0.05 * py_sin (2 * pi * (2 * f) * t)
      + 0.08 * py_sin (2 * pi * (0.5 * f) * t) + acc) 0 chord.
Proof.
  revert acc; induction chord as [|f r IH]; intros acc; simpl.
  - lra.
  - rewrite IH.
    assert (E2 : py_sin (2 * pi * f * 2 * t) == py_sin (2 * pi * (2 * f) * t))
      by (apply sin_proper; ring).
    assert (E3 : py_sin (2 * pi * f * 0.5 * t) == py_sin (2 * pi * (0.5 * f) * t))
      by (apply sin_proper; ring).
    lra.
Qed.

Lemma chord_sample_spec (chord : list Q) (t : Q) :
  chord_sample py_sin pi chord t == spec_pre_sample py_sin pi chord t.
Proof.
  unfold chord_sample, spec_pre_sample.
  rewrite harmonic_sum_spec. ring.
Qed.

End Formula.

Lemma crossfade_proper (spc i : Z) (x y : Q) :
  x == y -> crossfade spc i x == crossfade spc i y.
Proof.
  intros H. unfold crossfade.
  destruct (i <? crossfade_samples)%Z; [now rewrite H|].
  destruct (spc - crossfade_samples <? i)%Z; [now rewrite H | exact H].
Qed.

Lemma clamp08_proper (x y : Q) : x == y -> clamp08 x == clamp08 y.
Proof.
  intros H. unfold clamp08, py_min.
  destruct (Qle_bool_cases 0.8 x) as [[-> ?] | [-> ?]];
    destruct (Qle_bool_cases 0.8 y) as [[-> ?] | [-> ?]]; simpl;
    unfold py_max; case_Qle_bool; lra.
Qed.

Lemma nth_error_render (py_sin : Q -> Q) (pi : Q) (chords : list (list Q)) (spc : Z)
    (s : nat) (i : Z) :
  (s < length chords)%nat -> (0 <= i < spc)%Z ->
  nth_error (render_chords py_sin pi chords spc) (s * Z.to_nat spc + Z.to_nat i)
  = Some (chord_frame py_sin pi spc (nth s chords []) i).
Proof.
  intros Hs Hi.
  rewrite render_chords_concat.
  rewrite (nth_error_concat_uniform _ (Z.to_nat spc)).
  - unfold enumerate. rewrite nth_error_combine_seq.
    destruct (nth_error chords s) as [c|] eqn:E.
    + simpl. rewrite nth_error_map, nth_error_py_range by lia. simpl.
      rewrite Nat.mod_small by exact Hs.
      rewrite (nth_error_nth chords s [] E).
      now rewrite Z2Nat.id by lia.
    + apply nth_error_None in E. lia.
  - intros p. now rewrite length_map, length_py_range.
  - lia.
Qed.

(** ** Mood resolution *)

Definition tone_matches (tone : string) (e : string * list string) : bool :=
  existsb (fun kw => py_contains kw tone) (snd e).

Lemma detect_mood_loop_first (tone : string) pre mood kws post :
  tone_matches tone (mood, kws) = true ->
  Forall (fun e => tone_matches tone e = false) pre ->
  detect_mood_loop tone (pre ++ (mood, kws) :: post) = mood.
Proof.
  intros Hm Hpre. induction Hpre as [|[m k] r Hx Hr IH]; simpl.
  - unfold tone_matches in Hm; simpl in Hm. now rewrite Hm.
  - unfold tone_matches in Hx; simpl in Hx. now rewrite Hx.
Qed.

Lemma detect_mood_loop_default (tone : string) table :
  Forall (fun e => tone_matches tone e = false) table ->
  detect_mood_loop tone table = "calm"%string.
Proof.
  induction 1 as [|[m k] r Hx Hr IH]; simpl; [reflexivity|].
  unfold tone_matches in Hx; simpl in Hx. now rewrite Hx.
Qed.

(** ** Truncation toward zero *)

Lemma py_int_ceiling (x : Q) : x <= 0 -> py_int x = Qceiling x.
Proof.
  destruct x as [n d]; unfold py_int, Qceiling, Qfloor, Qle; simpl; intros H.
  replace n with (- (- n))%Z at 1 by lia.
  rewrite Z.quot_opp_l by lia.
  rewrite Z.quot_div_nonneg by lia. reflexivity.
Qed.

Lemma py_int_nonneg_bounds (x : Q) : 0 <= x ->
  inject_Z (py_int x) <= x < inject_Z (py_int x) + 1.
Proof.
  intros H. rewrite py_int_floor by exact H.
  split; [apply Qfloor_le|]. pose proof (Qlt_floor x).
  rewrite inject_Z_plus in H0. exact H0.
Qed.

Lemma py_int_nonpos_bounds (x : Q) : x <= 0 ->
  inject_Z (py_int x) - 1 < x <= inject_Z (py_int x).
Proof.
  intros H. rewrite py_int_ceiling by exact H.
  split; [|apply Qle_ceiling]. pose proof (Qceiling_lt x).
  unfold Z.sub in H0. rewrite inject_Z_plus in H0. exact H0.
Qed.

(** ** Directory scan *)

Lemma filter_first {A} (P : A -> bool) (l : list A) (f : A) (r : list A) :
  filter P l = f :: r ->
  exists l1 l2, l = l1 ++ f :: l2 /\ P f = true /\ Forall (fun x => P x = false) l1.
Proof.
  revert r; induction l as [|x l IH]; intros r H; simpl in H; [discriminate|].
  destruct (P x) eqn:Px.
  - injection H as -> _. exists [], l. repeat split; auto.
  - destruct (IH r H) as [l1 [l2 [-> [Hf Hl1]]]].
    exists (x :: l1), l2. repeat split; auto.
Qed.

Lemma find_in_exts_some (exts listing : list string) (p : string) :
  find_in_exts exts listing = Some p ->
  exists pre ext post l1 l2,
    exts = pre ++ ext :: post
    /\ (forall e name, In e pre -> In name listing -> glob_match e name = false)
    /\ listing = l1 ++ p :: l2 /\ glob_match ext p = true
    /\ (forall name, In name l1 -> glob_match ext name = false).
Proof.
  induction exts as [|ext rest IH]; simpl; [discriminate|].
  destruct (filter (glob_match ext) listing) as [|f r] eqn:E.
  - intros H. destruct (IH H) as [pre [e [post [l1 [l2 [-> [Hpre Hrest]]]]]]].
    exists (ext :: pre), e, post, l1, l2. split; [reflexivity|]. split; [|exact Hrest].
    intros e' name [<- | He'] Hn.
    + destruct (glob_match ext name) eqn:G; [|reflexivity].
      assert (In name (filter (glob_match ext) listing)) by (apply filter_In; auto).
      rewrite E in H0. destruct H0.
    + now apply Hpre.
  - intros [= <-]. destruct (filter_first _ _ _ _ E) as [l1 [l2 [-> [Hf Hl1]]]].
    exists [], ext, rest, l1, l2. repeat split; auto.
    + intros e name [].
    + intros name Hn. rewrite Forall_forall in Hl1. now apply Hl1.
Qed.

Lemma find_in_exts_none (exts listing : list string) :
  find_in_exts exts listing = None <->
  (forall e name, In e exts -> In name listing -> glob_match e name = false).
Proof.
  induction exts as [|ext rest IH]; simpl.
  - split; [intros _ e name []|reflexivity].
  - destruct (filter (glob_match ext) listing) as [|f r] eqn:E.
    + rewrite IH. split.
      * intros H e name [<- | He] Hn; [|now apply H].
        destruct (glob_match ext name) eqn:G; [|reflexivity].
        assert (In name (filter (glob_match ext) listing)) by (apply filter_In; auto).
        rewrite E in H0. destruct H0.
      * intros H e name He Hn. apply H; auto.
    + split; [discriminate|]. intros H.
      assert (Hf : In f (filter (glob_match ext) listing)) by (rewrite E; now left).
      apply filter_In in Hf. destruct Hf as [Hin Hg].
      rewrite (H ext f (or_introl eq_refl) Hin) in Hg. discriminate.
Qed.

(* ================================================================== *)
(** * Claims *)

(** ** C1: length of the buffer *)

(** C1 (counterexample): the length is not [round(duration * 44100)]:
    for a 16.00002 s track, [duration * 44100 = 705600.882], the buffer
    has 705600 frames while [round] gives 705601. *)
Lemma C1_length_not_round :
  exists buf,
    synth_buffer (fun _ => 0) 0 (1600002 # 100000) "calm" = inr buf
    /\ Z.of_nat (length buf) = 705600%Z
    /\ py_round ((1600002 # 100000) * inject_Z SAMPLE_RATE) = 705601%Z.
Proof.
  destruct (synth_buffer_ok (fun _ => 0) 0 (1600002 # 100000) "calm") as [buf [Hb [Hlen _]]].
  exists buf. split; [exact Hb|]. split.
  - rewrite Hlen, Z2Nat.id by (vm_compute; discriminate). vm_compute. reflexivity.
  - vm_compute. reflexivity.
Qed.

(** C1 (amended): for every duration > 0 and every mood, the sample
    buffer and the frames written both have exactly
    [int(duration * 44100) = floor(duration * 44100)] frames; the rendered
    chord frames are padded with silent [(0, 0)] frames up to that length. *)
Theorem C1_length_floor (py_sin : Q -> Q) (pi d : Q) (m : string) :
  0 < d ->
  let chords := mood_chords_get m in
  let rendered := render_chords py_sin pi chords (samples_per_chord_of d chords) in
  exists buf frames,
    synth_buffer py_sin pi d m = inr buf
    /\ synthesize_ambient py_sin pi d m = inr frames
    /\ length buf = Z.to_nat (Qfloor (d * 44100))
    /\ length frames = Z.to_nat (Qfloor (d * 44100))
    /\ pad_samples (total_samples_of d) rendered
       = rendered ++ repeat (0, 0) (Z.to_nat (Qfloor (d * 44100)) - length rendered).
Proof.
  intros Hd chords rendered.
  destruct (synthesize_ambient_ok py_sin pi d m) as [buf [frames [Hb [Hf [Hlen [_ [Hmap _]]]]]]].
  rewrite total_samples_floor in Hlen by exact Hd.
  exists buf, frames. repeat split; auto.
  - rewrite Hmap, length_map. exact Hlen.
  - rewrite pad_samples_spec, total_samples_floor by exact Hd. reflexivity.
Qed.

(** ** C2: amplitude bound *)

(** C2: for every duration and mood, synthesis raises nothing, every
    channel of every frame of the final buffer lies in [-0.8, 0.8], and
    every quantized sample written lies in [-32768, 32767]. *)
Theorem C2_amplitude_bound (py_sin : Q -> Q) (pi d : Q) (m : string) :
  exists buf frames,
    synth_buffer py_sin pi d m = inr buf
    /\ synthesize_ambient py_sin pi d m = inr frames
    /\ Forall frame_in_range buf
    /\ Forall pcm16_in_range frames.
Proof.
  destruct (synthesize_ambient_ok py_sin pi d m) as [buf [frames [Hb [Hf [_ [Hr [_ Hp]]]]]]].
  exists buf, frames. repeat split; assumption.
Qed.

(** ** C3: the frame formula *)

(** C3: in segment [s], at local index [i] with [t = i / 44100], the
    rendered frame is [(x, 0.95 * x)] where [x] is the clamped, crossfaded
    value of the spec's pre-crossfade sample (three weighted sines per
    chord frequency, times the LFO factor); [math.sin] only needs to be a
    function of the real value of its argument. *)
Theorem C3_frame_formula (py_sin : Q -> Q) (pi : Q) (chords : list (list Q))
    (spc : Z) (s : nat) (i : Z) :
  (forall x y, x == y -> py_sin x == py_sin y) ->
  (s < length chords)%nat -> (0 <= i < spc)%Z ->
  exists left right,
    nth_error (render_chords py_sin pi chords spc) (s * Z.to_nat spc + Z.to_nat i)
      = Some (left, right)
    /\ left == clamp08 (crossfade spc i
                 (spec_pre_sample py_sin pi (nth s chords []) (inject_Z i / inject_Z SAMPLE_RATE)))
    /\ right == left * 0.95.
Proof.
  intros Hsin Hs Hi.
  rewrite (nth_error_render py_sin pi chords spc s i Hs Hi).
  unfold chord_frame.
  eexists; eexists; split; [reflexivity|]. split; [|reflexivity].
  apply clamp08_proper, crossfade_proper, chord_sample_spec. exact Hsin.
Qed.

(** ** C4: the crossfade *)

(** C4 (counterexample): a 2 s track has 22050-sample segments, shorter
    than two crossfades; at [i = 22049], in both windows, the code applies
    only the fade-in ramp, not both ramps. *)
Lemma C4_overlap_only_fade_in :
  samples_per_chord_of 2 (mood_chords_get "calm") = 22050%Z
  /\ crossfade 22050 22049 1 == 22049 # 22050
  /\ ~ (crossfade 22050 22049 1 == crossfade_both 22050 22049 1).
Proof.
  split; [reflexivity|]. split; [reflexivity|].
  intros H. vm_compute in H. discriminate H.
Qed.

(** C4 (amended): with [crossfade_samples = 22050], a sample of index [i]
    of a segment of [spc] samples is scaled by [i / crossfade_samples] when
    [i < crossfade_samples]; otherwise by [(spc - i) / crossfade_samples]
    when it is among the last [crossfade_samples]; otherwise not at all.
    Where the two windows overlap, only the fade-in ramp applies. *)
Theorem C4_crossfade_ramps (spc i : Z) (x : Q) :
  (0 <= i < spc)%Z ->
  crossfade_samples = 22050%Z
  /\ ((i < crossfade_samples)%Z ->
      crossfade spc i x == x * (inject_Z i / inject_Z crossfade_samples))
  /\ ((crossfade_samples <= i)%Z -> (spc - crossfade_samples <= i)%Z ->
      crossfade spc i x == x * (inject_Z (spc - i) / inject_Z crossfade_samples))
  /\ ((crossfade_samples <= i < spc - crossfade_samples)%Z -> crossfade spc i x == x).
Proof.
  intros Hi. rewrite crossfade_samples_val. unfold crossfade. rewrite crossfade_samples_val.
  split; [reflexivity|]. split; [|split].
  - intros H. destruct (Z.ltb_spec i 22050); [reflexivity|lia].
  - intros H1 H2. destruct (Z.ltb_spec i 22050); [lia|].
    destruct (Z.ltb_spec (spc - 22050) i); [reflexivity|].
    replace (spc - i)%Z with 22050%Z by lia.
    change (x == x * ((22050 # 1) * / (22050 # 1))). field.
  - intros H. destruct (Z.ltb_spec i 22050); [lia|].
    destruct (Z.ltb_spec (spc - 22050) i); [lia|reflexivity].
Qed.

(** ** C5: mood resolution *)

(** C5 (counterexample): ["soft piano ballad"] resolves to [calm], not
    [melancholic]: ["soft"] is a [calm] keyword and [calm] comes first.
    The input is ASCII, on which [str.lower] is [ascii_lower]. *)
Lemma C5_soft_piano_is_calm :
  is_ascii "soft piano ballad" = true
  /\ detect_mood ascii_lower "soft piano ballad" = "calm"%string
  /\ detect_mood ascii_lower "soft piano ballad" <> "melancholic"%string.
Proof. split; [reflexivity|]. split; [reflexivity | discriminate]. Qed.

(** C5 (amended): for any lower-casing function that is [str.lower] on
    ASCII text, the resolver lower-cases its input and returns the first
    mood, in the table order calm, inspirational, nostalgic, epic,
    melancholic, dreamy, one of whose keywords is a substring of the
    lower-cased text, and [calm] when none is; so ["soft piano ballad"]
    gives [calm], [""] gives [calm] and ["epic orchestral battle"] gives
    [epic].  The two general clauses hold whatever the lower-casing. *)
Theorem C5_mood_resolution (py_lower : string -> string) :
  lower_ok py_lower ->
  map fst mood_keywords
    = ["calm"; "inspirational"; "nostalgic"; "epic"; "melancholic"; "dreamy"]%string
  /\ detect_mood py_lower "soft piano ballad" = "calm"%string
  /\ detect_mood py_lower "" = "calm"%string
  /\ detect_mood py_lower "epic orchestral battle" = "epic"%string
  /\ (forall tone pre mood kws post,
        mood_keywords = pre ++ (mood, kws) :: post ->
        tone_matches (py_lower tone) (mood, kws) = true ->
        Forall (fun e => tone_matches (py_lower tone) e = false) pre ->
        detect_mood py_lower tone = mood)
  /\ (forall tone,
        Forall (fun e => tone_matches (py_lower tone) e = false) mood_keywords ->
        detect_mood py_lower tone = "calm"%string).
Proof.
  intros Hl.
  split; [reflexivity|].
  split; [unfold detect_mood; rewrite Hl by reflexivity; reflexivity|].
  split; [unfold detect_mood; rewrite Hl by reflexivity; reflexivity|].
  split; [unfold detect_mood; rewrite Hl by reflexivity; reflexivity|]. split.
  - intros tone pre mood kws post Ht Hm Hpre. unfold detect_mood. rewrite Ht.
    now apply detect_mood_loop_first.
  - intros tone H. unfold detect_mood. now apply detect_mood_loop_default.
Qed.

(** ** C6: quantization *)

(** C6 (counterexample): the writer truncates: [0.8 * 32767 = 26213.6] is
    written as 26213, while [round] gives 26214. *)
Lemma C6_quantize_truncates :
  quantize 0.8 = 26213%Z /\ py_round (0.8 * 32767) = 26214%Z.
Proof. split; reflexivity. Qed.

(** C6 (amended): for an amplitude [a] in [-1, 1] the writer emits
    [int(a * 32767)], the truncation of [a * 32767] toward zero (the clamp
    to [-32768, 32767] never acts); it lies in [-32767, 32767]. *)
Theorem C6_quantize_trunc (a : Q) :
  -1 <= a <= 1 ->
  quantize a = py_int (a * 32767)
  /\ (-32767 <= quantize a <= 32767)%Z
  /\ (0 <= a -> inject_Z (quantize a) <= a * 32767 < inject_Z (quantize a) + 1)
  /\ (a <= 0 -> inject_Z (quantize a) - 1 < a * 32767 <= inject_Z (quantize a)).
Proof.
  intros Ha.
  assert (Hr : (-32767 <= py_int (a * 32767) <= 32767)%Z).
  { destruct (Qlt_le_dec a 0) as [Hn | Hp].
    - pose proof (py_int_nonpos_bounds (a * 32767)) as [H1 H2]; [lra|].
      assert (inject_Z (-32768) < inject_Z (py_int (a * 32767)))
        by (change (inject_Z (-32768)) with ((-32768) # 1); lra).
      assert (inject_Z (py_int (a * 32767)) < inject_Z 1)
        by (change (inject_Z 1) with (1 # 1); lra).
      rewrite <- Zlt_Qlt in *. lia.
    - pose proof (py_int_nonneg_bounds (a * 32767)) as [H1 H2]; [lra|].
      assert (inject_Z (py_int (a * 32767)) < inject_Z 32768)
        by (change (inject_Z 32768) with (32768 # 1); lra).
      assert (inject_Z (-1) < inject_Z (py_int (a * 32767)))
        by (change (inject_Z (-1)) with ((-1) # 1); lra).
      rewrite <- Zlt_Qlt in *. lia. }
  assert (Hq : quantize a = py_int (a * 32767)) by (unfold quantize, clamp16; lia).
  split; [exact Hq|]. split; [lia|]. rewrite Hq. split.
  - intros H. apply py_int_nonneg_bounds. lra.
  - intros H. apply py_int_nonpos_bounds. lra.
Qed.

(** ** C7: non-positive durations *)



(** ** C8: determinism *)

(** C8: the frames written, the result and the resulting seed of the
    [random] module depend only on [(duration, mood)]: not on the seed
    found on entry, the clock, or any other part of the world. *)
Theorem C8_deterministic (py_sin : Q -> Q) (pi d : Q) (m path : string) (w1 w2 : world) :
  let (w1', r1) := synthesize_ambient_io py_sin pi path d m w1 in
  let (w2', r2) := synthesize_ambient_io py_sin pi path d m w2 in
  r1 = r2
  /\ rng_seed w1' = rng_seed w2'
  /\ assoc_get path (files w1') = assoc_get path (files w2').
Proof.
  unfold synthesize_ambient_io.
  destruct (synthesize_ambient_ok py_sin pi d m) as [_ [frames [_ [-> _]]]]; simpl.
  rewrite String.eqb_refl. auto.
Qed.

(** ** C9: custom-music override *)

(** C9: [_find_custom_music] returns the first listed file matching the
    earliest of [*.mp3], [*.wav], [*.ogg], [*.m4a] that has a match; it
    returns nothing iff the directory is absent or nothing matches; and
    when it finds a file, [generate_background_music] returns it with no
    file written and without running the synthesizer (whose
    [random.seed(42)] leaves the seed untouched); the same holds of
    [generate_background_music_full] once [mkdir] has succeeded. *)
Theorem C9_custom_music_override :
  (forall w p, find_custom_music w = Some p ->
     exists listing pre ext post l1 l2,
       music_dir w = Some listing
       /\ music_exts = pre ++ ext :: post
       /\ (forall e name, In e pre -> In name listing -> glob_match e name = false)
       /\ listing = l1 ++ p :: l2 /\ glob_match ext p = true
       /\ (forall name, In name l1 -> glob_match ext name = false))
  /\ (forall w, find_custom_music w = None <->
        (music_dir w = None
         \/ exists listing, music_dir w = Some listing
            /\ forall e name, In e music_exts -> In name listing -> glob_match e name = false))
  /\ (forall py_lower py_sin pi s output_dir duration w p,
        find_custom_music w = Some p ->
        generate_background_music py_lower py_sin pi s output_dir duration w
          = (add_dir output_dir w, inr p)
        /\ files (add_dir output_dir w) = files w
        /\ rng_seed (add_dir output_dir w) = rng_seed w)
  /\ (forall py_lower py_sin pi mkdir_ok open_ok temp_dir s output_dir duration w p,
        let od := match output_dir with Some d => d | None => temp_dir end in
        mkdir_ok od = true -> find_custom_music w = Some p ->
        generate_background_music_full py_lower py_sin pi mkdir_ok open_ok temp_dir
          s output_dir duration w = (add_dir od w, inr p)).
Proof.
  split; [|split].
  - intros w p. unfold find_custom_music.
    destruct (music_dir w) as [listing|]; [|discriminate].
    intros H. destruct (find_in_exts_some _ _ _ H) as [pre [ext [post [l1 [l2 Hx]]]]].
    exists listing, pre, ext, post, l1, l2. split; auto.
  - intros w. unfold find_custom_music.
    destruct (music_dir w) as [listing|].
    + rewrite find_in_exts_none. split.
      * intros H. right. exists listing. split; auto.
      * intros [H | [l [[= <-] H]]]; [discriminate | exact H].
    + split; auto.
  - split.
    + intros py_lower py_sin pi s output_dir duration w p H.
      unfold generate_background_music.
      replace (find_custom_music (add_dir output_dir w)) with (find_custom_music w)
        by reflexivity.
      rewrite H. auto.
    + intros py_lower py_sin pi mkdir_ok open_ok temp_dir s output_dir duration w p od Hm H.
      unfold generate_background_music_full. fold od. rewrite Hm. simpl.
      change (find_custom_music (add_dir od w)) with (find_custom_music w).
      rewrite H. reflexivity.
Qed.

(** ** C10: the rendered frames never overshoot *)

(** C10: for every duration > 0, [samples_per_chord = floor(duration/4 *
    44100)], the four segments give [4 * samples_per_chord] frames, at most
    [total_samples = floor(duration * 44100)]; after padding the buffer has
    exactly [total_samples] frames, and the slice [audio_data[:total_samples]]
    drops nothing. *)
Theorem C10_no_overshoot (py_sin : Q -> Q) (pi d : Q) (m : string) :
  0 < d ->
  let chords := mood_chords_get m in
  let spc := samples_per_chord_of d chords in
  let total := total_samples_of d in
  let rendered := render_chords py_sin pi chords spc in
  length chords = 4%nat
  /\ spc = Qfloor (d / 4 * 44100)
  /\ total = Qfloor (d * 44100)
  /\ length rendered = (4 * Z.to_nat spc)%nat
  /\ (4 * spc <= total)%Z
  /\ length (pad_samples total rendered) = Z.to_nat total
  /\ exists buf, synth_buffer py_sin pi d m = inr buf /\ py_slice_upto buf total = buf.
Proof.
  intros Hd chords spc total rendered. subst chords spc total rendered.
  split; [apply mood_chords_length|].
  split; [now apply samples_per_chord_floor|].
  split; [now apply total_samples_floor|].
  split; [apply render_mood_length|].
  split; [now apply segments_fit_pos|].
  split.
  - rewrite pad_samples_length, render_mood_length.
    pose proof (segments_fit d m). lia.
  - destruct (synth_buffer_ok py_sin pi d m) as [buf [Hb [Hlen _]]].
    exists buf. split; [exact Hb|]. now apply slice_full.
Qed.

(* ------------------------------------------------------------------ *)
(** * Instances of the theorems with hypotheses *)

Lemma C1_length_floor_witness :
  0 < 1 /\
  (let chords := mood_chords_get "calm" in
   let rendered := render_chords (fun _ => 0) 0 chords (samples_per_chord_of 1 chords) in
   exists buf frames,
     synth_buffer (fun _ => 0) 0 1 "calm" = inr buf
     /\ synthesize_ambient (fun _ => 0) 0 1 "calm" = inr frames
     /\ length buf = Z.to_nat (Qfloor (1 * 44100))
     /\ length frames = Z.to_nat (Qfloor (1 * 44100))
     /\ pad_samples (total_samples_of 1) rendered
        = rendered ++ repeat (0, 0) (Z.to_nat (Qfloor (1 * 44100)) - length rendered)).
Proof.
  split; [reflexivity|]. apply (C1_length_floor (fun _ => 0) 0 1 "calm"). reflexivity.
Defined.

Lemma C3_frame_formula_witness :
  (forall x y, x == y -> (fun z : Q => z) x == (fun z : Q => z) y)
  /\ (1 < length (mood_chords_get "calm"))%nat /\ (0 <= 2 < 3)%Z
  /\ exists left right,
       nth_error (render_chords (fun z => z) 3 (mood_chords_get "calm") 3)
         (1 * Z.to_nat 3 + Z.to_nat 2) = Some (left, right)
       /\ left == clamp08 (crossfade 3 2
            (spec_pre_sample (fun z => z) 3 (nth 1 (mood_chords_get "calm") [])
               (inject_Z 2 / inject_Z SAMPLE_RATE)))
       /\ right == left * 0.95.
Proof.
  split; [intros x y H; exact H|]. split; [simpl; lia|]. split; [lia|].
  apply (C3_frame_formula (fun z => z) 3 (mood_chords_get "calm") 3 1 2);
    [intros x y H; exact H | simpl; lia | lia].
Defined.

Lemma C4_crossfade_ramps_witness :
  (0 <= 22049 < 22050)%Z
  /\ crossfade_samples = 22050%Z
  /\ ((22049 < crossfade_samples)%Z ->
      crossfade 22050 22049 1 == 1 * (inject_Z 22049 / inject_Z crossfade_samples))
  /\ ((crossfade_samples <= 22049)%Z -> (22050 - crossfade_samples <= 22049)%Z ->
      crossfade 22050 22049 1 == 1 * (inject_Z (22050 - 22049) / inject_Z crossfade_samples))
  /\ ((crossfade_samples <= 22049 < 22050 - crossfade_samples)%Z -> crossfade 22050 22049 1 == 1).
Proof.
  split; [lia|]. apply (C4_crossfade_ramps 22050 22049 1). lia.
Defined.

Lemma C5_mood_resolution_witness :
  lower_ok ascii_lower
  /\ map fst mood_keywords
       = ["calm"; "inspirational"; "nostalgic"; "epic"; "melancholic"; "dreamy"]%string
  /\ detect_mood ascii_lower "soft piano ballad" = "calm"%string
  /\ detect_mood ascii_lower "" = "calm"%string
  /\ detect_mood ascii_lower "epic orchestral battle" = "epic"%string
  /\ (forall tone pre mood kws post,
        mood_keywords = pre ++ (mood, kws) :: post ->
        tone_matches (ascii_lower tone) (mood, kws) = true ->
        Forall (fun e => tone_matches (ascii_lower tone) e = false) pre ->
        detect_mood ascii_lower tone = mood)
  /\ (forall tone,
        Forall (fun e => tone_matches (ascii_lower tone) e = false) mood_keywords ->
        detect_mood ascii_lower tone = "calm"%string).
Proof.
  assert (H : lower_ok ascii_lower) by (intros t _; reflexivity).
  exact (conj H (C5_mood_resolution ascii_lower H)).
Defined.

Lemma C6_quantize_trunc_witness :
  -1 <= 0.8 <= 1
  /\ quantize 0.8 = py_int (0.8 * 32767)
  /\ (-32767 <= quantize 0.8 <= 32767)%Z
  /\ (0 <= 0.8 -> inject_Z (quantize 0.8) <= 0.8 * 32767 < inject_Z (quantize 0.8) + 1)
  /\ (0.8 <= 0 -> inject_Z (quantize 0.8) - 1 < 0.8 * 32767 <= inject_Z (quantize 0.8)).
Proof.
  split; [split; vm_compute; discriminate|].
  apply (C6_quantize_trunc 0.8). split; vm_compute; discriminate.
Defined.


Lemma C10_no_overshoot_witness :
  0 < 2 /\
  (let chords := mood_chords_get "calm" in
   let spc := samples_per_chord_of 2 chords in
   let total := total_samples_of 2 in
   let rendered := render_chords (fun _ => 0) 0 chords spc in
   length chords = 4%nat
   /\ spc = Qfloor (2 / 4 * 44100)
   /\ total = Qfloor (2 * 44100)
   /\ length rendered = (4 * Z.to_nat spc)%nat
   /\ (4 * spc <= total)%Z
   /\ length (pad_samples total rendered) = Z.to_nat total
   /\ exists buf, synth_buffer (fun _ => 0) 0 2 "calm" = inr buf /\ py_slice_upto buf total = buf).
Proof.
  split; [reflexivity|]. apply (C10_no_overshoot (fun _ => 0) 0 2 "calm"). reflexivity.
Defined.

(* ================================================================== *)
(** * Further properties of the music generator *)

(** ** The fade envelope *)

Lemma nth_list_set_eq {A} (l : list A) (k : nat) (a d : A) :
  (k < length l)%nat -> nth k (list_set l k a) d = a.
Proof.
  revert k; induction l as [|x r IH]; intros [|k] H; simpl in *; try lia; auto.
  all: apply IH; lia.
Qed.

Lemma nth_list_set_neq {A} (l : list A) (j k : nat) (a d : A) :
  j <> k -> nth j (list_set l k a) d = nth j l d.
Proof.
  revert j k; induction l as [|x r IH]; intros [|j] [|k] H; simpl; auto; try lia.
  all: apply IH; lia.
Qed.

Lemma py_getitem_nth {A} (xs : list A) (i : Z) (d : A) :
  (0 <= i < Z.of_nat (length xs))%Z ->
  py_getitem xs i = inr (nth (Z.to_nat i) xs d).
Proof.
  intros H. unfold py_getitem.
  destruct (Z.ltb_spec i 0); [lia|].
  destruct (Z.leb_spec 0 i); [|lia]. destruct (Z.ltb_spec i (Z.of_nat (length xs))); [|lia].
  simpl. rewrite (nth_error_nth' xs d) by lia. reflexivity.
Qed.

(** A loop whose body scales the frame at a position [pos i] by
    [ratio i], at pairwise distinct positions: the frames at the visited
    positions are scaled once, the others are untouched. *)
Lemma for_in_scale (pos : Z -> nat) (ratio : Z -> Q)
    (body : Z -> list (Q * Q) -> PyM (list (Q * Q))) (is : list Z) (s : list (Q * Q)) :
  (forall i t, In i is -> length t = length s ->
     (pos i < length s)%nat
     /\ body i t = inr (list_set t (pos i) (scale_frame (nth (pos i) t (0, 0)) (ratio i)))) ->
  NoDup (map pos is) ->
  exists s', for_in body is s = inr s' /\ length s' = length s
    /\ (forall j, ~ In j (map pos is) -> nth j s' (0, 0) = nth j s (0, 0))
    /\ (forall i, In i is -> nth (pos i) s' (0, 0) = scale_frame (nth (pos i) s (0, 0)) (ratio i)).
Proof.
  revert s; induction is as [|i r IH]; intros s Hbody Hnd; simpl.
  - exists s. repeat split; auto. intros i [].
  - destruct (Hbody i s (or_introl eq_refl) eq_refl) as [Hpos ->]. simpl.
    apply NoDup_cons_iff in Hnd. destruct Hnd as [Hni Hnd].
    set (s1 := list_set s (pos i) (scale_frame (nth (pos i) s (0, 0)) (ratio i))).
    assert (Hl1 : length s1 = length s) by apply length_list_set.
    destruct (IH s1) as [s' [E [Hl [Hout Hin]]]].
    { intros i' t Hi' Ht. rewrite Hl1. apply Hbody; [now right | lia]. }
    { exact Hnd. }
    exists s'. split; [exact E|]. split; [lia|]. split.
    + intros j Hj. rewrite Hout by (intros H; apply Hj; now right).
      apply nth_list_set_neq. intros ->. apply Hj. now left.
    + intros i' [<- | Hi'].
      * rewrite Hout by exact Hni. unfold s1. now apply nth_list_set_eq.
      * rewrite Hin by exact Hi'. f_equal. unfold s1. apply nth_list_set_neq.
        intros Heq. apply Hni. rewrite <- Heq. now apply in_map.
Qed.

Lemma In_map_to_nat_range (m : Z) (j : nat) :
  In j (map (fun i => Z.to_nat i) (py_range m)) <-> (j < Z.to_nat m)%nat.
Proof.
  rewrite in_map_iff. split.
  - intros [i [<- Hi]]. apply In_py_range in Hi. lia.
  - intros H. exists (Z.of_nat j). split; [lia|]. apply In_py_range. lia.
Qed.

Lemma fade_in_stage (l : list (Q * Q)) :
  exists s1, for_in fade_in_body
               (py_range (Z.min fade_in_samples (Z.of_nat (length l)))) l = inr s1
    /\ length s1 = length l
    /\ forall j, nth j s1 (0, 0)
       = if (Z.of_nat j <? Z.min fade_in_samples (Z.of_nat (length l)))%Z
         then scale_frame (nth j l (0, 0)) (inject_Z (Z.of_nat j) / inject_Z fade_in_samples)
         else nth j l (0, 0).
Proof.
  set (m := Z.min fade_in_samples (Z.of_nat (length l))).
  destruct (for_in_scale (fun i => Z.to_nat i) (fun i => inject_Z i / inject_Z fade_in_samples)
              fade_in_body (py_range m) l) as [s1 [E [Hl [Hout Hin]]]].
  - intros i t Hi Ht. apply In_py_range in Hi. split; [lia|].
    unfold fade_in_body. rewrite (py_getitem_nth t i (0, 0)) by lia. simpl.
    rewrite py_setitem_ok by lia. reflexivity.
  - unfold py_range. rewrite map_map.
    replace (map (fun x => Z.to_nat (Z.of_nat x)) (seq 0 (Z.to_nat m))) with (seq 0 (Z.to_nat m)).
    + apply seq_NoDup.
    + rewrite <- (map_id (seq 0 (Z.to_nat m))) at 1. apply map_ext. intros; lia.
  - exists s1. split; [exact E|]. split; [exact Hl|]. intros j.
    destruct (Z.ltb_spec (Z.of_nat j) m).
    + replace j with (Z.to_nat (Z.of_nat j)) at 1 3 by lia.
      rewrite Hin by (apply In_py_range; lia). now rewrite Nat2Z.id.
    + apply Hout. rewrite In_map_to_nat_range. lia.
Qed.

Lemma NoDup_py_range (m : Z) : NoDup (py_range m).
Proof.
  unfold py_range. apply NoDup_map_NoDup_ForallPairs; [|apply seq_NoDup].
  intros a b _ _ H. lia.
Qed.

Lemma fade_out_stage (s1 : list (Q * Q)) :
  exists s2, for_in fade_out_body
               (py_range (Z.min fade_out_samples (Z.of_nat (length s1)))) s1 = inr s2
    /\ length s2 = length s1
    /\ forall j, (j < length s1)%nat ->
       nth j s2 (0, 0)
       = let k := (Z.of_nat (length s1) - 1 - Z.of_nat j)%Z in
         if (k <? Z.min fade_out_samples (Z.of_nat (length s1)))%Z
         then scale_frame (nth j s1 (0, 0)) (inject_Z k / inject_Z fade_out_samples)
         else nth j s1 (0, 0).
Proof.
  set (n := Z.of_nat (length s1)).
  set (m := Z.min fade_out_samples n).
  destruct (for_in_scale (fun i => Z.to_nat (n - 1 - i))
              (fun i => inject_Z i / inject_Z fade_out_samples)
              fade_out_body (py_range m) s1) as [s2 [E [Hl [Hout Hin]]]].
  - intros i t Hi Ht. apply In_py_range in Hi. unfold m, n in Hi. split; [lia|].
    unfold fade_out_body. rewrite Ht. fold n.
    rewrite (py_getitem_nth t (n - 1 - i) (0, 0)) by lia. simpl.
    rewrite py_setitem_ok by lia. reflexivity.
  - apply NoDup_map_NoDup_ForallPairs; [|apply NoDup_py_range].
    intros a b Ha Hb H. apply In_py_range in Ha, Hb. unfold m, n in *. lia.
  - exists s2. split; [exact E|]. split; [exact Hl|]. intros j Hj. simpl.
    destruct (Z.ltb_spec (n - 1 - Z.of_nat j) m).
    + assert (Hj' : Z.to_nat (n - 1 - (n - 1 - Z.of_nat j)) = j) by (unfold n in *; lia).
      assert (Hr : In (n - 1 - Z.of_nat j)%Z (py_range m))
        by (apply In_py_range; unfold m, n in *; lia).
      pose proof (Hin _ Hr) as Hs. rewrite Hj' in Hs. exact Hs.
    + apply Hout. rewrite in_map_iff. intros [i [Hi Hin']].
      apply In_py_range in Hin'. unfold m, n in *. lia.
Qed.

(** The two fade loops never raise, keep the length, and leave at each
    index [j] the frame [faded_frame n j] of the frame found there. *)
Lemma apply_fades_spec (l : list (Q * Q)) :
  exists l', apply_fades l = inr l' /\ length l' = length l
    /\ forall j, (j < length l)%nat ->
       nth j l' (0, 0) = faded_frame (length l) j (nth j l (0, 0)).
Proof.
  destruct (fade_in_stage l) as [s1 [E1 [Hl1 H1]]].
  destruct (fade_out_stage s1) as [s2 [E2 [Hl2 H2]]].
  exists s2. unfold apply_fades. rewrite E1. simpl. rewrite E2.
  split; [reflexivity|]. split; [lia|]. intros j Hj.
  rewrite H2 by lia. rewrite Hl1. unfold faded_frame. rewrite H1. reflexivity.
Qed.

Lemma synth_buffer_pre_fade py_sin pi (d : Q) (m : string) :
  synth_buffer py_sin pi d m = apply_fades (pre_fade py_sin pi d m).
Proof. reflexivity. Qed.

Lemma pre_fade_length py_sin pi (d : Q) (m : string) :
  length (pre_fade py_sin pi d m) = Z.to_nat (total_samples_of d).
Proof.
  unfold pre_fade. rewrite pad_samples_length, render_mood_length.
  pose proof (segments_fit d m). lia.
Qed.

Lemma faded_frame_silent (n j : nat) (f : Q * Q) :
  silent f -> silent (faded_frame n j f).
Proof.
  unfold silent, faded_frame. intros [H1 H2].
  destruct (_ <? _)%Z; destruct (_ <? _)%Z; simpl;
    rewrite ?H1, ?H2; split; ring.
Qed.

Lemma scale_frame_zero (f : Q * Q) (r : Q) : r == 0 -> silent (scale_frame f r).
Proof. unfold silent, scale_frame; simpl. intros H. rewrite H. split; ring. Qed.

Lemma pre_fade_tail py_sin pi (d : Q) (m : string) (j : nat) :
  let chords := mood_chords_get m in
  (length (render_chords py_sin pi chords (samples_per_chord_of d chords)) <= j)%nat ->
  nth j (pre_fade py_sin pi d m) (0, 0) = (0, 0).
Proof.
  intros chords H. unfold pre_fade. rewrite pad_samples_spec.
  rewrite app_nth2 by exact H.
  destruct (Nat.lt_ge_cases (j - length (render_chords py_sin pi chords
              (samples_per_chord_of d chords)))
              (Z.to_nat (total_samples_of d) - length (render_chords py_sin pi chords
              (samples_per_chord_of d chords)))) as [Hlt | Hge].
  - now apply nth_repeat_lt.
  - apply nth_overflow. rewrite repeat_length. exact Hge.
Qed.

(** ** Mood table *)

Lemma detect_mood_loop_in (tone : string) table :
  In (detect_mood_loop tone table) ("calm"%string :: map fst table).
Proof.
  induction table as [|[m k] r IH]; simpl; [now left|].
  destruct (existsb _ k).
  - right. now left.
  - destruct IH as [H | H]; [now left | right; now right].
Qed.

(** ** Quantization headroom *)

Lemma quantize_headroom (x : Q) : -0.8 <= x <= 0.8 -> (-26213 <= quantize x <= 26213)%Z.
Proof.
  intros Hx.
  assert (Hr : (-26213 <= py_int (x * 32767) <= 26213)%Z).
  { destruct (Qlt_le_dec x 0) as [Hn | Hp].
    - pose proof (py_int_nonpos_bounds (x * 32767)) as [H1 H2]; [lra|].
      assert (inject_Z (-26214) < inject_Z (py_int (x * 32767)))
        by (change (inject_Z (-26214)) with ((-26214) # 1); lra).
      assert (inject_Z (py_int (x * 32767)) < inject_Z 1)
        by (change (inject_Z 1) with (1 # 1); lra).
      rewrite <- Zlt_Qlt in *. lia.
    - pose proof (py_int_nonneg_bounds (x * 32767)) as [H1 H2]; [lra|].
      assert (inject_Z (py_int (x * 32767)) < inject_Z 26214)
        by (change (inject_Z 26214) with (26214 # 1); lra).
      assert (inject_Z (-1) < inject_Z (py_int (x * 32767)))
        by (change (inject_Z (-1)) with ((-1) # 1); lra).
      rewrite <- Zlt_Qlt in *. lia. }
  unfold quantize, clamp16. lia.
Qed.

Lemma scale_frame_silent (f : Q * Q) (r : Q) : silent f -> silent (scale_frame f r).
Proof. unfold silent, scale_frame; simpl. intros [H1 H2]. rewrite H1, H2. split; ring. Qed.

Lemma faded_frame_first (n : nat) (f : Q * Q) : (0 < n)%nat -> silent (faded_frame n 0 f).
Proof.
  intros Hn. unfold faded_frame; cbv zeta. rewrite fade_in_samples_val.
  replace (Z.of_nat 0 <? Z.min 44100 (Z.of_nat n))%Z with true
    by (symmetry; apply Z.ltb_lt; lia).
  assert (H : silent (scale_frame f (inject_Z (Z.of_nat 0) / inject_Z 44100)))
    by (apply scale_frame_zero; reflexivity).
  destruct (_ <? _)%Z; [apply scale_frame_silent|]; exact H.
Qed.

Lemma faded_frame_last (n : nat) (f : Q * Q) : (0 < n)%nat -> silent (faded_frame n (n - 1) f).
Proof.
  intros Hn. unfold faded_frame; cbv zeta. rewrite fade_out_samples_val.
  replace (Z.of_nat n - 1 - Z.of_nat (n - 1))%Z with 0%Z by lia.
  replace (0 <? Z.min 88200 (Z.of_nat n))%Z with true
    by (symmetry; apply Z.ltb_lt; lia).
  apply scale_frame_zero. reflexivity.
Qed.

Lemma faded_frame_middle (n j : nat) (f : Q * Q) :
  (44100 <= Z.of_nat j)%Z -> (Z.of_nat j + 88200 < Z.of_nat n)%Z -> faded_frame n j f = f.
Proof.
  intros H1 H2. unfold faded_frame; cbv zeta. rewrite fade_in_samples_val, fade_out_samples_val.
  replace (Z.of_nat j <? Z.min 44100 (Z.of_nat n))%Z with false
    by (symmetry; apply Z.ltb_ge; lia).
  replace (Z.of_nat n - 1 - Z.of_nat j <? Z.min 88200 (Z.of_nat n))%Z with false
    by (symmetry; apply Z.ltb_ge; lia).
  reflexivity.
Qed.

Lemma faded_frame_stereo (n j : nat) (f : Q * Q) :
  stereo_ok f -> stereo_ok (faded_frame n j f).
Proof.
  unfold stereo_ok, faded_frame. intros H.
  destruct (_ <? _)%Z; destruct (_ <? _)%Z; simpl; rewrite ?H; ring.
Qed.

Lemma pre_fade_stereo py_sin pi (d : Q) (m : string) :
  Forall stereo_ok (pre_fade py_sin pi d m).
Proof.
  unfold pre_fade. rewrite pad_samples_spec. apply Forall_app. split.
  - rewrite render_chords_concat. apply Forall_forall. intros x Hx.
    apply in_concat in Hx. destruct Hx as [l [Hl Hx]].
    apply in_map_iff in Hl. destruct Hl as [p [<- _]].
    apply in_map_iff in Hx. destruct Hx as [i [<- _]].
    unfold stereo_ok, chord_frame; simpl. reflexivity.
  - apply Forall_forall. intros x Hx. apply repeat_spec in Hx. subst x.
    unfold stereo_ok; simpl. reflexivity.
Qed.

Lemma chord_frame_start_silent py_sin pi (spc : Z) (chord : list Q) :
  silent (chord_frame py_sin pi spc chord 0).
Proof.
  unfold silent, chord_frame; cbv zeta; simpl fst; simpl snd.
  assert (H : crossfade spc 0 (chord_sample py_sin pi chord (inject_Z 0 / inject_Z SAMPLE_RATE)) == 0).
  { unfold crossfade. rewrite crossfade_samples_val.
    replace (0 <? 22050)%Z with true by reflexivity.
    assert (Z0 : inject_Z 0 / inject_Z 22050 == 0) by reflexivity.
    rewrite Z0. ring. }
  pose proof (clamp08_proper _ _ H) as H'.
  assert (E : clamp08 0 == 0) by reflexivity.
  rewrite E in H'. rewrite H'. split; [reflexivity | ring].
Qed.

Lemma quantize_frame_headroom (f : Q * Q) :
  frame_in_range f ->
  (-26213 <= quantize (fst f) <= 26213)%Z /\ (-26213 <= quantize (snd f) <= 26213)%Z.
Proof. intros [H1 H2]. split; now apply quantize_headroom. Qed.

Lemma py_int_mono (x y : Q) : x <= y -> (py_int x <= py_int y)%Z.
Proof.
  intros H.
  destruct (Qlt_le_dec x 0) as [Hx | Hx]; destruct (Qlt_le_dec y 0) as [Hy | Hy].
  - rewrite !py_int_ceiling by lra. now apply Qceiling_resp_le.
  - assert (py_int x <= 0)%Z by (apply py_int_nonpos; lra).
    rewrite (py_int_floor y) by exact Hy.
    assert (0 <= Qfloor y)%Z.
    { rewrite <- (Qfloor_Z 0). apply Qfloor_resp_le. exact Hy. }
    lia.
  - lra.
  - rewrite !py_int_floor by lra. now apply Qfloor_resp_le.
Qed.

Lemma synth_buffer_faded py_sin pi (d : Q) (m : string) :
  exists buf, synth_buffer py_sin pi d m = inr buf
    /\ length buf = Z.to_nat (total_samples_of d)
    /\ forall j, (j < length buf)%nat ->
       nth j buf (0, 0) = faded_frame (length buf) j (nth j (pre_fade py_sin pi d m) (0, 0)).
Proof.
  destruct (apply_fades_spec (pre_fade py_sin pi d m)) as [buf [E [Hl H]]].
  exists buf. rewrite synth_buffer_pre_fade, E. split; [reflexivity|].
  rewrite Hl. split; [apply pre_fade_length | exact H].
Qed.



(** X1: the global fades are exactly the envelope [faded_frame]: frame [j]
    of the buffer is the padded chord frame [j], scaled by [j/44100] when
    [j] lies in the first [min(44100, n)] frames and by [(n-1-j)/88200]
    when it lies in the last [min(88200, n)] frames (both when the two
    windows overlap). *)
Theorem X1_fade_envelope py_sin pi (d : Q) (m : string) :
  exists buf, synth_buffer py_sin pi d m = inr buf
    /\ length buf = Z.to_nat (total_samples_of d)
    /\ forall j, (j < length buf)%nat ->
       nth j buf (0, 0) = faded_frame (length buf) j (nth j (pre_fade py_sin pi d m) (0, 0)).
Proof. exact (synth_buffer_faded py_sin pi d m). Qed.

(** X2: a nonempty track starts and ends on a silent frame: the fade-in
    ratio of frame 0 and the fade-out ratio of the last frame are 0. *)
Theorem X2_silent_ends py_sin pi (d : Q) (m : string) :
  (0 < total_samples_of d)%Z ->
  exists buf, synth_buffer py_sin pi d m = inr buf /\ (0 < length buf)%nat
    /\ silent (nth 0 buf (0, 0)) /\ silent (nth (length buf - 1) buf (0, 0)).
Proof.
  intros Ht.
  destruct (synth_buffer_faded py_sin pi d m) as [buf [E [Hl H]]].
  assert (Hn : (0 < length buf)%nat) by lia.
  exists buf. split; [exact E|]. split; [exact Hn|].
  rewrite !H by lia.
  split; [apply faded_frame_first | apply faded_frame_last]; exact Hn.
Qed.

(** X3: away from both fades (frame index at least 44100 and more than
    88200 frames before the end) the buffer holds the chord frame of its
    segment unchanged. *)
Theorem X3_untouched_middle py_sin pi (d : Q) (m : string) (s : nat) (i : Z) :
  (s < 4)%nat ->
  (0 <= i < samples_per_chord_of d (mood_chords_get m))%Z ->
  (44100 <= Z.of_nat s * samples_per_chord_of d (mood_chords_get m) + i)%Z ->
  (Z.of_nat s * samples_per_chord_of d (mood_chords_get m) + i + 88200 < total_samples_of d)%Z ->
  exists buf, synth_buffer py_sin pi d m = inr buf
    /\ nth (s * Z.to_nat (samples_per_chord_of d (mood_chords_get m)) + Z.to_nat i) buf (0, 0)
       = chord_frame py_sin pi (samples_per_chord_of d (mood_chords_get m))
           (nth s (mood_chords_get m) []) i.
Proof.
  intros Hs Hi H1 H2.
  set (spc := samples_per_chord_of d (mood_chords_get m)) in *.
  destruct (synth_buffer_faded py_sin pi d m) as [buf [E [Hl H]]].
  exists buf. split; [exact E|].
  assert (Hn : Z.of_nat (length buf) = total_samples_of d) by (rewrite Hl; lia).
  assert (Hj : Z.of_nat (s * Z.to_nat spc + Z.to_nat i) = (Z.of_nat s * spc + i)%Z) by lia.
  rewrite H by lia. rewrite faded_frame_middle by lia.
  pose proof (nth_error_render py_sin pi (mood_chords_get m) spc s i) as R.
  rewrite mood_chords_length in R. specialize (R Hs Hi).
  unfold pre_fade. fold spc. rewrite pad_samples_spec.
  apply nth_error_nth. rewrite nth_error_app1; [exact R|].
  apply nth_error_Some. rewrite R. discriminate.
Qed.

(** X4: the padding appended after the four chord segments is silent,
    and stays so through the fades. *)
Theorem X4_silent_padding py_sin pi (d : Q) (m : string) (j : Z) :
  (4 * samples_per_chord_of d (mood_chords_get m) <= j < total_samples_of d)%Z ->
  exists buf, synth_buffer py_sin pi d m = inr buf /\ silent (nth (Z.to_nat j) buf (0, 0)).
Proof.
  intros Hj.
  destruct (synth_buffer_faded py_sin pi d m) as [buf [E [Hl H]]].
  exists buf. split; [exact E|].
  destruct (Nat.lt_ge_cases (Z.to_nat j) (length buf)) as [Hlt | Hge].
  - rewrite H by exact Hlt. apply faded_frame_silent.
    rewrite pre_fade_tail; [split; reflexivity|].
    rewrite render_mood_length. lia.
  - rewrite nth_overflow by exact Hge. split; reflexivity.
Qed.

(** X5: every frame of the buffer keeps the stereo relation
    [right = left * 0.95]: the padding is [(0, 0)] and both fades scale
    the two channels by the same ratio. *)
Theorem X5_stereo_ratio py_sin pi (d : Q) (m : string) :
  exists buf, synth_buffer py_sin pi d m = inr buf /\ Forall stereo_ok buf.
Proof.
  destruct (synth_buffer_faded py_sin pi d m) as [buf [E [Hl H]]].
  exists buf. split; [exact E|].
  apply Forall_forall. intros x Hx.
  destruct (In_nth buf x (0, 0) Hx) as [j [Hj <-]].
  rewrite H by exact Hj. apply faded_frame_stereo.
  pose proof (pre_fade_stereo py_sin pi d m) as Hp.
  rewrite Forall_forall in Hp.
  destruct (Nat.lt_ge_cases j (length (pre_fade py_sin pi d m))) as [Hlt | Hge].
  - apply Hp. now apply nth_In.
  - rewrite nth_overflow by exact Hge. unfold stereo_ok; simpl. reflexivity.
Qed.

(** X6: every chord segment begins with a silent frame: at local index 0
    the crossfade-in ratio [0/22050] is 0. *)
Theorem X6_segment_start_silent py_sin pi (d : Q) (m : string) (s : nat) :
  (s < 4)%nat -> (0 < samples_per_chord_of d (mood_chords_get m))%Z ->
  exists buf, synth_buffer py_sin pi d m = inr buf
    /\ silent (nth (s * Z.to_nat (samples_per_chord_of d (mood_chords_get m))) buf (0, 0)).
Proof.
  intros Hs Hp.
  set (spc := samples_per_chord_of d (mood_chords_get m)) in *.
  destruct (synth_buffer_faded py_sin pi d m) as [buf [E [Hl H]]].
  exists buf. split; [exact E|].
  pose proof (segments_fit d m) as Hfit. fold spc in Hfit.
  rewrite H by nia. apply faded_frame_silent.
  pose proof (nth_error_render py_sin pi (mood_chords_get m) spc s 0) as R.
  rewrite mood_chords_length in R. specialize (R Hs ltac:(lia)).
  rewrite Nat.add_0_r in R.
  unfold pre_fade. fold spc. rewrite pad_samples_spec.
  rewrite app_nth1 by (apply nth_error_Some; rewrite R; discriminate).
  rewrite (nth_error_nth _ _ _ R).
  apply chord_frame_start_silent.
Qed.

(** X7: with amplitudes in [-0.8, 0.8], the written 16-bit samples never
    exceed 26213 in magnitude (0.8 * 32767 truncated), well inside the
    16-bit range: the clamp to [-32768, 32767] never fires. *)
Theorem X7_pcm_headroom py_sin pi (d : Q) (m : string) :
  exists frames, synthesize_ambient py_sin pi d m = inr frames
    /\ Forall (fun f => (-26213 <= fst f <= 26213)%Z /\ (-26213 <= snd f <= 26213)%Z) frames.
Proof.
  destruct (synthesize_ambient_ok py_sin pi d m)
    as [buf [frames [_ [Hs [_ [Hr [Hmap _]]]]]]].
  exists frames. split; [exact Hs|]. subst frames.
  apply Forall_map. eapply Forall_impl; [|exact Hr].
  intros f Hf. exact (quantize_frame_headroom f Hf).
Qed.

(** X8: [_detect_mood] only ever returns a key of [MOOD_CHORDS], whatever
    the lower-casing, so the fallback of [MOOD_CHORDS.get] is never taken
    for a detected mood. *)
Theorem X8_detected_mood_in_table (py_lower : string -> string) (tone : string) :
  exists chords, assoc_get (detect_mood py_lower tone) MOOD_CHORDS = Some chords.
Proof.
  unfold detect_mood.
  pose proof (detect_mood_loop_in (py_lower tone) mood_keywords) as H.
  remember (detect_mood_loop (py_lower tone) mood_keywords) as r eqn:Er. clear Er.
  simpl in H.
  destruct H as [<-|[<-|[<-|[<-|[<-|[<-|[<-|[]]]]]]]]; eexists; reflexivity.
Qed.


(** X12: quantization is monotone: a larger amplitude never yields a
    smaller 16-bit sample. *)
Theorem X12_quantize_monotone (x y : Q) : x <= y -> (quantize x <= quantize y)%Z.
Proof.
  intros H. unfold quantize, clamp16.
  assert (x * 32767 <= y * 32767) by lra.
  pose proof (py_int_mono _ _ H0). lia.
Qed.

(** X13: a longer duration never yields a shorter file. *)
Theorem X13_length_monotone py_sin pi (m : string) (d1 d2 : Q) :
  d1 <= d2 ->
  exists f1 f2, synthesize_ambient py_sin pi d1 m = inr f1
    /\ synthesize_ambient py_sin pi d2 m = inr f2 /\ (length f1 <= length f2)%nat.
Proof.
  intros H.
  destruct (synthesize_ambient_ok py_sin pi d1 m) as [b1 [f1 [_ [H1 [L1 [_ [M1 _]]]]]]].
  destruct (synthesize_ambient_ok py_sin pi d2 m) as [b2 [f2 [_ [H2 [L2 [_ [M2 _]]]]]]].
  exists f1, f2. split; [exact H1|]. split; [exact H2|].
  subst f1 f2. rewrite !length_map, L1, L2.
  assert (T : (total_samples_of d1 <= total_samples_of d2)%Z).
  { unfold total_samples_of. apply py_int_mono.
    change (inject_Z SAMPLE_RATE) with (44100 # 1). lra. }
  lia.
Qed.

Lemma fold_left_Qplus_nonneg (l : list Q) (acc : Q) :
  0 <= acc -> Forall (fun x => 0 <= x) l -> 0 <= fold_left Qplus l acc.
Proof.
  revert acc; induction l as [|x r IH]; intros acc Ha Hl; simpl; [exact Ha|].
  inversion Hl; subst. apply IH; [lra | assumption].
Qed.

Lemma py_int_opp (x : Q) : py_int (- x) = (- py_int x)%Z.
Proof. destruct x as [n d]. unfold py_int; simpl. apply Z.quot_opp_l. lia. Qed.

(** X14: [_find_custom_music] finds nothing exactly when [MUSIC_DIR] is
    absent or none of its entries matches one of the four patterns. *)
Theorem X14_no_custom_music_iff (w : world) :
  find_custom_music w = None <->
  (music_dir w = None
   \/ exists listing, music_dir w = Some listing
       /\ forall e name, In e music_exts -> In name listing -> glob_match e name = false).
Proof.
  unfold find_custom_music. destruct (music_dir w) as [listing|].
  - rewrite find_in_exts_none. split.
    + intros H. right. exists listing. split; [reflexivity | exact H].
    + intros [H | [l [H Hl]]]; [discriminate|]. injection H as <-. exact Hl.
  - split; [intros _; now left | reflexivity].
Qed.

(** X15: when the duration is derived from the script and no scene
    duration is negative, the synthesized track has at least
    [2.0 * 44100 = 88200] frames. *)
Theorem X15_derived_duration_min_length py_lower py_sin pi (s : script) (output_dir : string) (w : world) :
  find_custom_music w = None ->
  Forall (fun sd => match sd with Some d => 0 <= d | None => True end) (scenes s) ->
  exists w' frames,
    generate_background_music py_lower py_sin pi s output_dir None w
      = (w', inr (output_dir ++ "/background_music.wav")%string)
    /\ In ((output_dir ++ "/background_music.wav")%string, frames) (files w')
    /\ (88200 <= Z.of_nat (length frames))%Z.
Proof.
  intros Hf Hs. unfold generate_background_music. cbv zeta.
  change (find_custom_music (add_dir output_dir w)) with (find_custom_music w).
  rewrite Hf. unfold synthesize_ambient_io.
  match goal with |- context [synthesize_ambient _ _ ?d ?m] =>
    destruct (synthesize_ambient_ok py_sin pi d m)
      as [buf [frames [_ [Hsyn [Hl [_ [Hmap _]]]]]]];
    set (dur := d) in * end.
  rewrite Hsyn. eexists. exists frames. split; [reflexivity|]. split; [now left|].
  subst frames. rewrite length_map, Hl.
  assert (Hd : 0 <= fold_left Qplus
     (map (fun sd => match sd with Some d => d | None => SCENE_DURATION end) (scenes s)) 0).
  { apply fold_left_Qplus_nonneg; [lra|]. apply Forall_map.
    eapply Forall_impl; [|exact Hs]. intros [x|] Hx; [exact Hx | unfold SCENE_DURATION; lra]. }
  assert (T : (88200 <= total_samples_of dur)%Z).
  { change 88200%Z with (py_int (2 * inject_Z SAMPLE_RATE)).
    unfold total_samples_of. apply py_int_mono.
    change (inject_Z SAMPLE_RATE) with (44100 # 1). subst dur. lra. }
  lia.
Qed.

(** X16: for amplitudes in [-1, 1] quantization is odd: truncation toward
    zero treats [x] and [-x] alike and the clamp to 16 bits is inactive. *)
Theorem X16_quantize_odd (x : Q) : -1 <= x <= 1 -> quantize (- x) = (- quantize x)%Z.
Proof.
  intros Hx. unfold quantize.
  assert (E : py_int (- x * 32767) = (- py_int (x * 32767))%Z).
  { rewrite <- py_int_opp. destruct x as [n d]. unfold py_int; simpl.
    f_equal. lia. }
  assert (B : (-32767 <= py_int (x * 32767) <= 32767)%Z).
  { destruct (Qlt_le_dec x 0) as [Hn | Hp].
    - pose proof (py_int_nonpos_bounds (x * 32767)) as [H1 H2]; [lra|].
      assert (inject_Z (-32768) < inject_Z (py_int (x * 32767)))
        by (change (inject_Z (-32768)) with ((-32768) # 1); lra).
      assert (inject_Z (py_int (x * 32767)) < inject_Z 1)
        by (change (inject_Z 1) with (1 # 1); lra).
      rewrite <- Zlt_Qlt in *. lia.
    - pose proof (py_int_nonneg_bounds (x * 32767)) as [H1 H2]; [lra|].
      assert (inject_Z (py_int (x * 32767)) < inject_Z 32768)
        by (change (inject_Z 32768) with (32768 # 1); lra).
      assert (inject_Z (-1) < inject_Z (py_int (x * 32767)))
        by (change (inject_Z (-1)) with ((-1) # 1); lra).
      rewrite <- Zlt_Qlt in *. lia. }
  rewrite E. unfold clamp16. lia.
Qed.



(** ** Witnesses of the further properties *)

Lemma X2_silent_ends_witness :
  (0 < total_samples_of 1)%Z
  /\ exists buf, synth_buffer (fun _ => 0) 3 1 "calm" = inr buf /\ (0 < length buf)%nat
       /\ silent (nth 0 buf (0, 0)) /\ silent (nth (length buf - 1) buf (0, 0)).
Proof.
  split; [vm_compute; reflexivity|].
  apply (X2_silent_ends (fun _ => 0) 3 1 "calm"). vm_compute. reflexivity.
Defined.

Lemma X3_untouched_middle_witness :
  (1 < 4)%nat
  /\ (0 <= 0 < samples_per_chord_of 20 (mood_chords_get "calm"))%Z
  /\ (44100 <= Z.of_nat 1 * samples_per_chord_of 20 (mood_chords_get "calm") + 0)%Z
  /\ (Z.of_nat 1 * samples_per_chord_of 20 (mood_chords_get "calm") + 0 + 88200
      < total_samples_of 20)%Z
  /\ exists buf, synth_buffer (fun _ => 0) 3 20 "calm" = inr buf
       /\ nth (1 * Z.to_nat (samples_per_chord_of 20 (mood_chords_get "calm")) + Z.to_nat 0)
              buf (0, 0)
          = chord_frame (fun _ => 0) 3 (samples_per_chord_of 20 (mood_chords_get "calm"))
              (nth 1 (mood_chords_get "calm") []) 0.
Proof.
  assert (E1 : samples_per_chord_of 20 (mood_chords_get "calm") = 220500%Z)
    by (vm_compute; reflexivity).
  assert (E2 : total_samples_of 20 = 882000%Z) by (vm_compute; reflexivity).
  refine (conj _ (conj _ (conj _ (conj _ _)))); [lia | rewrite E1; lia | rewrite E1; lia
    | rewrite E1, E2; lia |].
  apply (X3_untouched_middle (fun _ => 0) 3 20 "calm" 1 0); rewrite ?E1, ?E2; lia.
Defined.

Lemma X4_silent_padding_witness :
  (4 * samples_per_chord_of 1.00005 (mood_chords_get "calm") <= 44100
     < total_samples_of 1.00005)%Z
  /\ exists buf, synth_buffer (fun _ => 0) 3 1.00005 "calm" = inr buf
       /\ silent (nth (Z.to_nat 44100) buf (0, 0)).
Proof.
  assert (E1 : samples_per_chord_of 1.00005 (mood_chords_get "calm") = 11025%Z)
    by (vm_compute; reflexivity).
  assert (E2 : total_samples_of 1.00005 = 44102%Z) by (vm_compute; reflexivity).
  split; [rewrite E1, E2; lia|].
  apply (X4_silent_padding (fun _ => 0) 3 1.00005 "calm" 44100). rewrite E1, E2. lia.
Defined.

Lemma X6_segment_start_silent_witness :
  (2 < 4)%nat /\ (0 < samples_per_chord_of 1 (mood_chords_get "calm"))%Z
  /\ exists buf, synth_buffer (fun _ => 0) 3 1 "calm" = inr buf
       /\ silent (nth (2 * Z.to_nat (samples_per_chord_of 1 (mood_chords_get "calm"))) buf (0, 0)).
Proof.
  split; [lia|]. split; [vm_compute; reflexivity|].
  apply (X6_segment_start_silent (fun _ => 0) 3 1 "calm" 2); [lia | vm_compute; reflexivity].
Defined.


Lemma X12_quantize_monotone_witness :
  0.1 <= 0.2 /\ (quantize 0.1 <= quantize 0.2)%Z.
Proof.
  split; [unfold Qle; simpl; lia|].
  apply X12_quantize_monotone. unfold Qle; simpl; lia.
Defined.

Lemma X13_length_monotone_witness :
  1 <= 2
  /\ exists f1 f2, synthesize_ambient (fun _ => 0) 3 1 "calm" = inr f1
       /\ synthesize_ambient (fun _ => 0) 3 2 "calm" = inr f2 /\ (length f1 <= length f2)%nat.
Proof.
  split; [unfold Qle; simpl; lia|].
  apply (X13_length_monotone (fun _ => 0) 3 "calm" 1 2). unfold Qle; simpl; lia.
Defined.

Lemma X15_derived_duration_min_length_witness :
  find_custom_music (mkWorld None 0 None [] []) = None
  /\ Forall (fun sd => match sd with Some d => 0 <= d | None => True end) [Some 1; None]
  /\ exists w' frames,
       generate_background_music ascii_lower (fun _ => 0) 3 (mkScript None [Some 1; None]) "out" None
         (mkWorld None 0 None [] [])
       = (w', inr ("out" ++ "/background_music.wav")%string)
       /\ In (("out" ++ "/background_music.wav")%string, frames) (files w')
       /\ (88200 <= Z.of_nat (length frames))%Z.
Proof.
  assert (H : Forall (fun sd => match sd with Some d => 0 <= d | None => True end)
                [Some 1; None]).
  { repeat constructor. unfold Qle; simpl; lia. }
  split; [reflexivity|]. split; [exact H|].
  apply (X15_derived_duration_min_length ascii_lower (fun _ => 0) 3 (mkScript None [Some 1; None]) "out"
           (mkWorld None 0 None [] [])); [reflexivity | exact H].
Defined.

Lemma X16_quantize_odd_witness :
  -1 <= 0.5 <= 1 /\ quantize (- 0.5) = (- quantize 0.5)%Z.
Proof.
  assert (H : -1 <= 0.5 <= 1) by (split; unfold Qle; simpl; lia).
  split; [exact H | exact (X16_quantize_odd 0.5 H)].
Defined.


